(** * IMU pre-integration ([initial_sfm::IntegrationBase]) — a shallow embedding

    The C++ class [IntegrationBase] of
    [msckf_vio/include/initial_sfm/integration_base.h] integrates inertial
    samples by the mid-point rule and propagates a 15x15 error-state jacobian
    and covariance.  The embedding below follows the header line by line.

    - [double] is an abstract scalar structure [Scalar]: the operations the
      code uses, with no law assumed.  What is proved for every [Scalar]
      holds in particular for IEEE binary64 ([FloatScalar]), the type the
      program runs on.  Properties that only make sense in exact arithmetic
      are proved under [ExactArith], the laws of an ordered field with square
      roots, which the real numbers ([RScalar]) satisfy.
    - Eigen is an external library: its operations are written out after
      Eigen's generic (non-vectorised) code paths.
    - The member functions are programs of a small state monad over the
      record of the data members. *)

From Stdlib Require Import ZArith QArith List Bool Lia Ring Floats Reals Lra Qreals.
Import ListNotations.

Set Implicit Arguments.

(** ** Scalars *)

(** The arithmetic the header performs on [double]. [lit] injects the decimal
    literals of the source text. *)
Record Scalar : Type := mkScalar {
  T :> Type;
  lit : Q -> T;
  sadd : T -> T -> T;
  ssub : T -> T -> T;
  smul : T -> T -> T;
  sdiv : T -> T -> T;
  sneg : T -> T;
  ssqrt : T -> T;
  sltb : T -> T -> bool
}.

Arguments lit {_} _.
Arguments sadd {_} _ _.
Arguments ssub {_} _ _.
Arguments smul {_} _ _.
Arguments sdiv {_} _ _.
Arguments sneg {_} _.
Arguments ssqrt {_} _.
Arguments sltb {_} _ _.

Declare Scope scalar_scope.
Delimit Scope scalar_scope with S.
Notation "x + y" := (sadd x y) : scalar_scope.
Notation "x - y" := (ssub x y) : scalar_scope.
Notation "x * y" := (smul x y) : scalar_scope.
Notation "x / y" := (sdiv x y) : scalar_scope.
Notation "- x" := (sneg x) : scalar_scope.
Notation "0" := (lit (0 # 1)) : scalar_scope.
Notation "1" := (lit (1 # 1)) : scalar_scope.
Notation "2" := (lit (2 # 1)) : scalar_scope.
Notation "'0.5'" := (lit (1 # 2)) : scalar_scope.
Notation "'0.25'" := (lit (1 # 4)) : scalar_scope.

Local Open Scope scalar_scope.

(** ** Eigen: fixed-size vectors, quaternions and dense matrices *)

Module Eigen.
Section WithScalar.
Variable S : Scalar.

(** [Eigen::Vector3d]. *)
Record Vector3d : Type := mkV3 { vx : S; vy : S; vz : S }.

(** [Eigen::Quaterniond]; the constructor takes [w, x, y, z]. *)
Record Quaterniond : Type := mkQuat { qw : S; qx : S; qy : S; qz : S }.

Definition v3_zero : Vector3d := mkV3 0 0 0.
Definition vadd (a b : Vector3d) : Vector3d :=
  mkV3 (vx a + vx b) (vy a + vy b) (vz a + vz b).
Definition vsub (a b : Vector3d) : Vector3d :=
  mkV3 (vx a - vx b) (vy a - vy b) (vz a - vz b).
(** [s * v] and [v * s]. *)
Definition svmul (s : S) (v : Vector3d) : Vector3d :=
  mkV3 (s * vx v) (s * vy v) (s * vz v).
Definition vsmul (v : Vector3d) (s : S) : Vector3d :=
  mkV3 (vx v * s) (vy v * s) (vz v * s).
(** [a.cross(b)]. *)
Definition cross (a b : Vector3d) : Vector3d :=
  mkV3 (vy a * vz b - vz a * vy b)
       (vz a * vx b - vx a * vz b)
       (vx a * vy b - vy a * vx b).

Definition q_identity : Quaterniond := mkQuat 1 0 0 0.
Definition q_vec (q : Quaterniond) : Vector3d := mkV3 (qx q) (qy q) (qz q).

(** [a * b] on quaternions: the Hamilton product, [a] on the left. *)
Definition qmul (a b : Quaterniond) : Quaterniond :=
  mkQuat
    (qw a * qw b - qx a * qx b - qy a * qy b - qz a * qz b)
    (qw a * qx b + qx a * qw b + qy a * qz b - qz a * qy b)
    (qw a * qy b + qy a * qw b + qz a * qx b - qx a * qz b)
    (qw a * qz b + qz a * qw b + qx a * qy b - qy a * qx b).

(** [q * v] on a quaternion and a vector ([_transformVector]):
    [uv = q.vec().cross(v); uv += uv; return v + q.w() * uv + q.vec().cross(uv)].
    No normalisation of [q] takes place. *)
Definition qrot (q : Quaterniond) (v : Vector3d) : Vector3d :=
  let uv := cross (q_vec q) v in
  let uv := vadd uv uv in
  vadd (vadd v (svmul (qw q) uv)) (cross (q_vec q) uv).

Definition q_squaredNorm (q : Quaterniond) : S :=
  qx q * qx q + qy q * qy q + qz q * qz q + qw q * qw q.

(** [q.normalize()]: the coefficients are divided by the norm when the
    squared norm is positive, and left alone otherwise. *)
Definition q_normalize (q : Quaterniond) : Quaterniond :=
  let z := q_squaredNorm q in
  if sltb 0 z then
    let n := ssqrt z in
    mkQuat (qw q / n) (qx q / n) (qy q / n) (qz q / n)
  else q.

Definition q_conjugate (q : Quaterniond) : Quaterniond :=
  mkQuat (qw q) (- qx q) (- qy q) (- qz q).

(** [q.inverse()]: the conjugate over the squared norm, or the zero
    quaternion when the squared norm is not positive. *)
Definition q_inverse (q : Quaterniond) : Quaterniond :=
  let n2 := q_squaredNorm q in
  if sltb 0 n2 then
    let c := q_conjugate q in
    mkQuat (qw c / n2) (qx c / n2) (qy c / n2) (qz c / n2)
  else mkQuat 0 0 0 0.

(** Dense matrices, row major.  Dimensions are static in the source and are
    passed to the operations here. *)
Definition Matrix : Type := list (list S).

Definition mget (M : Matrix) (i j : nat) : S := nth j (nth i M []) 0.

Definition mk_matrix (n m : nat) (f : nat -> nat -> S) : Matrix :=
  map (fun i => map (fun j => f i j) (seq 0 m)) (seq 0 n).

(** The sum of [f 0 .. f (n-1)]. *)
Fixpoint sum (n : nat) (f : nat -> S) : S :=
  match n with
  | O => 0
  | Datatypes.S k => sum k f + f k
  end.

Definition m_zero (n m : nat) : Matrix := mk_matrix n m (fun _ _ => 0).
Definition m_identity (n : nat) : Matrix :=
  mk_matrix n n (fun i j => if Nat.eqb i j then 1 else 0).
(** [A * B] with [A] of size [n x k] and [B] of size [k x m]. *)
Definition mmul (n k m : nat) (A B : Matrix) : Matrix :=
  mk_matrix n m (fun i j => sum k (fun l => mget A i l * mget B l j)).
Definition madd (n m : nat) (A B : Matrix) : Matrix :=
  mk_matrix n m (fun i j => mget A i j + mget B i j).
Definition msub (n m : nat) (A B : Matrix) : Matrix :=
  mk_matrix n m (fun i j => mget A i j - mget B i j).
Definition mneg (n m : nat) (A : Matrix) : Matrix :=
  mk_matrix n m (fun i j => - mget A i j).
(** [s * A] and [A * s]. *)
Definition smmul (n m : nat) (s : S) (A : Matrix) : Matrix :=
  mk_matrix n m (fun i j => s * mget A i j).
Definition msmul (n m : nat) (A : Matrix) (s : S) : Matrix :=
  mk_matrix n m (fun i j => mget A i j * s).
(** [A.transpose()] for [A] of size [n x m]. *)
Definition mtranspose (n m : nat) (A : Matrix) : Matrix :=
  mk_matrix m n (fun i j => mget A j i).
(** [M.block<h, w>(r, c)] read. *)
Definition block (h w r c : nat) (M : Matrix) : Matrix :=
  mk_matrix h w (fun i j => mget M (r + i) (c + j)).
(** [M.block<h, w>(r, c) = B] on [M] of size [n x m]. *)
Definition set_block (n m h w r c : nat) (B M : Matrix) : Matrix :=
  mk_matrix n m (fun i j =>
    if (r <=? i) && (i <? r + h) && (c <=? j) && (j <? c + w)
    then mget B (i - r) (j - c) else mget M i j).
(** The comma initialiser [M << a, b, c, d, e, f, g, h, i] of a 3x3 matrix. *)
Definition mat3 (a b c d e f g h i : S) : Matrix :=
  [[a; b; c]; [d; e; f]; [g; h; i]].
(** [M * v] for a 3x3 matrix and a 3-vector. *)
Definition mvmul3 (M : Matrix) (v : Vector3d) : Vector3d :=
  mkV3 (mget M 0 0 * vx v + mget M 0 1 * vy v + mget M 0 2 * vz v)
       (mget M 1 0 * vx v + mget M 1 1 * vy v + mget M 1 2 * vz v)
       (mget M 2 0 * vx v + mget M 2 1 * vy v + mget M 2 2 * vz v).

(** [q.toRotationMatrix()]. *)
Definition toRotationMatrix (q : Quaterniond) : Matrix :=
  let tx := 2 * qx q in
  let ty := 2 * qy q in
  let tz := 2 * qz q in
  let twx := tx * qw q in
  let twy := ty * qw q in
  let twz := tz * qw q in
  let txx := tx * qx q in
  let txy := ty * qx q in
  let txz := tz * qx q in
  let tyy := ty * qy q in
  let tyz := tz * qy q in
  let tzz := tz * qz q in
  mat3 (1 - (tyy + tzz)) (txy - twz) (txz + twy)
       (txy + twz) (1 - (txx + tzz)) (tyz - twx)
       (txz - twy) (tyz + twx) (1 - (txx + tyy)).

End WithScalar.

Arguments mkV3 {S} _ _ _.
Arguments mkQuat {S} _ _ _ _.
Arguments mat3 {S} _ _ _ _ _ _ _ _ _.
Arguments v3_zero {S}.
Arguments q_identity {S}.
Arguments mget {S} M i j.
Arguments mk_matrix {S} n m f.
Arguments sum {S} n f.
Arguments m_zero {S} n m.
Arguments m_identity {S} n.

End Eigen.

Import Eigen.

(** ** The class [initial_sfm::IntegrationBase] *)

Declare Scope eigen_scope.
Delimit Scope eigen_scope with E.
(** Vector and 3x3 matrix expressions, with the precedences of C++. *)
Notation "a +^ b" := (vadd a b) (at level 50, left associativity) : eigen_scope.
Notation "a -^ b" := (vsub a b) (at level 50, left associativity) : eigen_scope.
Notation "s *^ v" := (svmul s v) (at level 40, left associativity) : eigen_scope.
Notation "v ^* s" := (vsmul v s) (at level 40, left associativity) : eigen_scope.
Notation "A +m B" := (madd 3 3 A B) (at level 50, left associativity) : eigen_scope.
Notation "A -m B" := (msub 3 3 A B) (at level 50, left associativity) : eigen_scope.
Notation "A *m B" := (mmul 3 3 3 A B) (at level 40, left associativity) : eigen_scope.
Notation "s *: A" := (smmul 3 3 s A) (at level 40, left associativity) : eigen_scope.
Notation "A :* s" := (msmul 3 3 A s) (at level 40, left associativity) : eigen_scope.
Local Open Scope eigen_scope.

Section IntegrationBase.
Variable S : Scalar.

(** [msckf_vio::deltaQ] lives in [msckf_vio/math_utils.hpp], which is not
    part of the sources at hand; [evaluate] takes it as a parameter. *)
Variable deltaQ : Vector3d S -> Quaterniond S.

(** The file-level statics and their initialisers; the header never assigns
    them. *)
Definition ACC_N : S := lit 0.08%Q.
Definition ACC_W : S := lit 0.00004%Q.
Definition GYR_N : S := lit 0.004%Q.
Definition GYR_W : S := lit 2.0e-6%Q.
Definition G : Vector3d S := mkV3 0 0 (lit 9.81%Q).

(** [enum StateOrder]. *)
Definition O_P : nat := 0%nat.
Definition O_R : nat := 3%nat.
Definition O_V : nat := 6%nat.
Definition O_BA : nat := 9%nat.
Definition O_BG : nat := 12%nat.

(** The data members, in declaration order. *)
Record IntegrationBase : Type := mkIntegrationBase {
  dt : S;
  acc_0 : Vector3d S;
  gyr_0 : Vector3d S;
  acc_1 : Vector3d S;
  gyr_1 : Vector3d S;
  linearized_acc : Vector3d S;
  linearized_gyr : Vector3d S;
  linearized_ba : Vector3d S;
  linearized_bg : Vector3d S;
  jacobian : Matrix S;
  covariance : Matrix S;
  step_jacobian : Matrix S;
  step_V : Matrix S;
  noise : Matrix S;
  sum_dt : S;
  delta_p : Vector3d S;
  delta_q : Quaterniond S;
  delta_v : Vector3d S;
  dt_buf : list S;
  acc_buf : list (Vector3d S);
  gyr_buf : list (Vector3d S)
}.

(** Assignment to one member. [linearized_acc] and [linearized_gyr] are
    [const]; [step_jacobian] and [step_V] are never assigned. *)
Definition set_dt (v : S) (s : IntegrationBase) : IntegrationBase :=
  mkIntegrationBase v (acc_0 s) (gyr_0 s) (acc_1 s) (gyr_1 s) (linearized_acc s)
    (linearized_gyr s) (linearized_ba s) (linearized_bg s) (jacobian s)
    (covariance s) (step_jacobian s) (step_V s) (noise s) (sum_dt s) (delta_p s)
    (delta_q s) (delta_v s) (dt_buf s) (acc_buf s) (gyr_buf s).
Definition set_acc_0 (v : Vector3d S) (s : IntegrationBase) : IntegrationBase :=
  mkIntegrationBase (dt s) v (gyr_0 s) (acc_1 s) (gyr_1 s) (linearized_acc s)
    (linearized_gyr s) (linearized_ba s) (linearized_bg s) (jacobian s)
    (covariance s) (step_jacobian s) (step_V s) (noise s) (sum_dt s) (delta_p s)
    (delta_q s) (delta_v s) (dt_buf s) (acc_buf s) (gyr_buf s).
Definition set_gyr_0 (v : Vector3d S) (s : IntegrationBase) : IntegrationBase :=
  mkIntegrationBase (dt s) (acc_0 s) v (acc_1 s) (gyr_1 s) (linearized_acc s)
    (linearized_gyr s) (linearized_ba s) (linearized_bg s) (jacobian s)
    (covariance s) (step_jacobian s) (step_V s) (noise s) (sum_dt s) (delta_p s)
    (delta_q s) (delta_v s) (dt_buf s) (acc_buf s) (gyr_buf s).
Definition set_acc_1 (v : Vector3d S) (s : IntegrationBase) : IntegrationBase :=
  mkIntegrationBase (dt s) (acc_0 s) (gyr_0 s) v (gyr_1 s) (linearized_acc s)
    (linearized_gyr s) (linearized_ba s) (linearized_bg s) (jacobian s)
    (covariance s) (step_jacobian s) (step_V s) (noise s) (sum_dt s) (delta_p s)
    (delta_q s) (delta_v s) (dt_buf s) (acc_buf s) (gyr_buf s).
Definition set_gyr_1 (v : Vector3d S) (s : IntegrationBase) : IntegrationBase :=
  mkIntegrationBase (dt s) (acc_0 s) (gyr_0 s) (acc_1 s) v (linearized_acc s)
    (linearized_gyr s) (linearized_ba s) (linearized_bg s) (jacobian s)
    (covariance s) (step_jacobian s) (step_V s) (noise s) (sum_dt s) (delta_p s)
    (delta_q s) (delta_v s) (dt_buf s) (acc_buf s) (gyr_buf s).
Definition set_linearized_ba (v : Vector3d S) (s : IntegrationBase) : IntegrationBase :=
  mkIntegrationBase (dt s) (acc_0 s) (gyr_0 s) (acc_1 s) (gyr_1 s) (linearized_acc s)
    (linearized_gyr s) v (linearized_bg s) (jacobian s)
    (covariance s) (step_jacobian s) (step_V s) (noise s) (sum_dt s) (delta_p s)
    (delta_q s) (delta_v s) (dt_buf s) (acc_buf s) (gyr_buf s).
Definition set_linearized_bg (v : Vector3d S) (s : IntegrationBase) : IntegrationBase :=
  mkIntegrationBase (dt s) (acc_0 s) (gyr_0 s) (acc_1 s) (gyr_1 s) (linearized_acc s)
    (linearized_gyr s) (linearized_ba s) v (jacobian s)
    (covariance s) (step_jacobian s) (step_V s) (noise s) (sum_dt s) (delta_p s)
    (delta_q s) (delta_v s) (dt_buf s) (acc_buf s) (gyr_buf s).
Definition set_jacobian (v : Matrix S) (s : IntegrationBase) : IntegrationBase :=
  mkIntegrationBase (dt s) (acc_0 s) (gyr_0 s) (acc_1 s) (gyr_1 s) (linearized_acc s)
    (linearized_gyr s) (linearized_ba s) (linearized_bg s) v
    (covariance s) (step_jacobian s) (step_V s) (noise s) (sum_dt s) (delta_p s)
    (delta_q s) (delta_v s) (dt_buf s) (acc_buf s) (gyr_buf s).
Definition set_covariance (v : Matrix S) (s : IntegrationBase) : IntegrationBase :=
  mkIntegrationBase (dt s) (acc_0 s) (gyr_0 s) (acc_1 s) (gyr_1 s) (linearized_acc s)
    (linearized_gyr s) (linearized_ba s) (linearized_bg s) (jacobian s)
    v (step_jacobian s) (step_V s) (noise s) (sum_dt s) (delta_p s)
    (delta_q s) (delta_v s) (dt_buf s) (acc_buf s) (gyr_buf s).
Definition set_noise (v : Matrix S) (s : IntegrationBase) : IntegrationBase :=
  mkIntegrationBase (dt s) (acc_0 s) (gyr_0 s) (acc_1 s) (gyr_1 s) (linearized_acc s)
    (linearized_gyr s) (linearized_ba s) (linearized_bg s) (jacobian s)
    (covariance s) (step_jacobian s) (step_V s) v (sum_dt s) (delta_p s)
    (delta_q s) (delta_v s) (dt_buf s) (acc_buf s) (gyr_buf s).
Definition set_sum_dt (v : S) (s : IntegrationBase) : IntegrationBase :=
  mkIntegrationBase (dt s) (acc_0 s) (gyr_0 s) (acc_1 s) (gyr_1 s) (linearized_acc s)
    (linearized_gyr s) (linearized_ba s) (linearized_bg s) (jacobian s)
    (covariance s) (step_jacobian s) (step_V s) (noise s) v (delta_p s)
    (delta_q s) (delta_v s) (dt_buf s) (acc_buf s) (gyr_buf s).
Definition set_delta_p (v : Vector3d S) (s : IntegrationBase) : IntegrationBase :=
  mkIntegrationBase (dt s) (acc_0 s) (gyr_0 s) (acc_1 s) (gyr_1 s) (linearized_acc s)
    (linearized_gyr s) (linearized_ba s) (linearized_bg s) (jacobian s)
    (covariance s) (step_jacobian s) (step_V s) (noise s) (sum_dt s) v
    (delta_q s) (delta_v s) (dt_buf s) (acc_buf s) (gyr_buf s).
Definition set_delta_q (v : Quaterniond S) (s : IntegrationBase) : IntegrationBase :=
  mkIntegrationBase (dt s) (acc_0 s) (gyr_0 s) (acc_1 s) (gyr_1 s) (linearized_acc s)
    (linearized_gyr s) (linearized_ba s) (linearized_bg s) (jacobian s)
    (covariance s) (step_jacobian s) (step_V s) (noise s) (sum_dt s) (delta_p s)
    v (delta_v s) (dt_buf s) (acc_buf s) (gyr_buf s).
Definition set_delta_v (v : Vector3d S) (s : IntegrationBase) : IntegrationBase :=
  mkIntegrationBase (dt s) (acc_0 s) (gyr_0 s) (acc_1 s) (gyr_1 s) (linearized_acc s)
    (linearized_gyr s) (linearized_ba s) (linearized_bg s) (jacobian s)
    (covariance s) (step_jacobian s) (step_V s) (noise s) (sum_dt s) (delta_p s)
    (delta_q s) v (dt_buf s) (acc_buf s) (gyr_buf s).
Definition set_dt_buf (v : list S) (s : IntegrationBase) : IntegrationBase :=
  mkIntegrationBase (dt s) (acc_0 s) (gyr_0 s) (acc_1 s) (gyr_1 s) (linearized_acc s)
    (linearized_gyr s) (linearized_ba s) (linearized_bg s) (jacobian s)
    (covariance s) (step_jacobian s) (step_V s) (noise s) (sum_dt s) (delta_p s)
    (delta_q s) (delta_v s) v (acc_buf s) (gyr_buf s).
Definition set_acc_buf (v : list (Vector3d S)) (s : IntegrationBase) : IntegrationBase :=
  mkIntegrationBase (dt s) (acc_0 s) (gyr_0 s) (acc_1 s) (gyr_1 s) (linearized_acc s)
    (linearized_gyr s) (linearized_ba s) (linearized_bg s) (jacobian s)
    (covariance s) (step_jacobian s) (step_V s) (noise s) (sum_dt s) (delta_p s)
    (delta_q s) (delta_v s) (dt_buf s) v (gyr_buf s).
Definition set_gyr_buf (v : list (Vector3d S)) (s : IntegrationBase) : IntegrationBase :=
  mkIntegrationBase (dt s) (acc_0 s) (gyr_0 s) (acc_1 s) (gyr_1 s) (linearized_acc s)
    (linearized_gyr s) (linearized_ba s) (linearized_bg s) (jacobian s)
    (covariance s) (step_jacobian s) (step_V s) (noise s) (sum_dt s) (delta_p s)
    (delta_q s) (delta_v s) (dt_buf s) (acc_buf s) v.

(** *** Member functions as state-monad programs *)

Definition M (A : Type) : Type := IntegrationBase -> A * IntegrationBase.
Definition ret {A : Type} (a : A) : M A := fun s => (a, s).
Definition bind {A B : Type} (m : M A) (k : A -> M B) : M B :=
  fun s => let r := m s in k (fst r) (snd r).
(** Reading a member, and assigning one. *)
Definition read {A : Type} (f : IntegrationBase -> A) : M A := fun s => (f s, s).
Definition assign {A : Type} (set : A -> IntegrationBase -> IntegrationBase)
  (v : A) : M unit := fun s => (tt, set v s).
(** The state a member function leaves behind. *)
Definition exec {A : Type} (m : M A) (s : IntegrationBase) : IntegrationBase :=
  snd (m s).
Definition eval {A : Type} (m : M A) (s : IntegrationBase) : A := fst (m s).

Notation "x <- m ;; k" := (bind m (fun x => k))
  (at level 61, m at next level, right associativity).
Notation "m ;; k" := (bind m (fun _ => k))
  (at level 61, right associativity).

(** What a step hands back through its reference parameters. *)
Record MidPointResult : Type := mkMidPointResult {
  result_delta_p : Vector3d S;
  result_delta_q : Quaterniond S;
  result_delta_v : Vector3d S;
  result_linearized_ba : Vector3d S;
  result_linearized_bg : Vector3d S
}.

(** An instance as the constructor leaves it.  [dt], [acc_1], [gyr_1],
    [step_jacobian] and [step_V] are not initialised by the constructor: their
    indeterminate contents are the arguments [u_dt] .. [u_step_V]. *)
Record Uninit : Type := mkUninit {
  u_dt : S;
  u_acc_1 : Vector3d S;
  u_gyr_1 : Vector3d S;
  u_step_jacobian : Matrix S;
  u_step_V : Matrix S
}.

Definition IntegrationBase_new (u : Uninit)
  (_acc_0 _gyr_0 _linearized_ba _linearized_bg : Vector3d S) : IntegrationBase :=
  let this :=
    mkIntegrationBase (u_dt u) _acc_0 _gyr_0 (u_acc_1 u) (u_gyr_1 u)
      _acc_0 _gyr_0 _linearized_ba _linearized_bg
      (m_identity 15) (m_zero 15 15)
      (u_step_jacobian u) (u_step_V u)
      [] 0 v3_zero q_identity v3_zero [] [] [] in
  (* matrix Q(18x18) *)
  let noise := m_zero 18 18 in
  let noise := set_block 18 18 3 3 0 0 (smmul 3 3 (ACC_N * ACC_N) (m_identity 3)) noise in
  let noise := set_block 18 18 3 3 3 3 (smmul 3 3 (GYR_N * GYR_N) (m_identity 3)) noise in
  let noise := set_block 18 18 3 3 6 6 (smmul 3 3 (ACC_N * ACC_N) (m_identity 3)) noise in
  let noise := set_block 18 18 3 3 9 9 (smmul 3 3 (GYR_N * GYR_N) (m_identity 3)) noise in
  let noise := set_block 18 18 3 3 12 12 (smmul 3 3 (ACC_W * ACC_W) (m_identity 3)) noise in
  let noise := set_block 18 18 3 3 15 15 (smmul 3 3 (GYR_W * GYR_W) (m_identity 3)) noise in
  set_noise noise this.

(** [[w]x], the comma-initialised skew-symmetric matrix of a vector. *)
Definition skew (w : Vector3d S) : Matrix S :=
  mat3 0 (- vz w) (vy w)
       (vz w) 0 (- vx w)
       (- vy w) (vx w) 0.

(** The local [F] of [midPointIntegration] (lines 160-175). *)
Definition build_F (_dt : S) (delta_q result_delta_q : Quaterniond S)
  (R_w_x R_a_0_x R_a_1_x : Matrix S) : Matrix S :=
  let I3 := m_identity 3 in
  let Rq := toRotationMatrix delta_q in
  let Rq' := toRotationMatrix result_delta_q in
  let F := m_zero 15 15 in
  let F := set_block 15 15 3 3 0 0 I3 F in
  let F := set_block 15 15 3 3 0 3
    (- (0.25) *: Rq *m R_a_0_x :* _dt :* _dt +m
     - (0.25) *: Rq' *m R_a_1_x *m (I3 -m R_w_x :* _dt) :* _dt :* _dt) F in
  let F := set_block 15 15 3 3 0 6 (I3 :* _dt) F in
  let F := set_block 15 15 3 3 0 9 (- (0.25) *: (Rq +m Rq') :* _dt :* _dt) F in
  let F := set_block 15 15 3 3 0 12
    (- (0.25) *: Rq' *m R_a_1_x :* _dt :* _dt :* (- _dt)) F in
  let F := set_block 15 15 3 3 3 3 (I3 -m R_w_x :* _dt) F in
  let F := set_block 15 15 3 3 3 12 (- (1) *: I3 :* _dt) F in
  let F := set_block 15 15 3 3 6 3
    (- (0.5) *: Rq *m R_a_0_x :* _dt +m
     - (0.5) *: Rq' *m R_a_1_x *m (I3 -m R_w_x :* _dt) :* _dt) F in
  let F := set_block 15 15 3 3 6 6 I3 F in
  let F := set_block 15 15 3 3 6 9 (- (0.5) *: (Rq +m Rq') :* _dt) F in
  let F := set_block 15 15 3 3 6 12
    (- (0.5) *: Rq' *m R_a_1_x :* _dt :* (- _dt)) F in
  let F := set_block 15 15 3 3 9 9 I3 F in
  let F := set_block 15 15 3 3 12 12 I3 F in
  F.

(** The local [V] of [midPointIntegration] (lines 177-189). *)
Definition build_V (_dt : S) (delta_q result_delta_q : Quaterniond S)
  (R_a_1_x : Matrix S) : Matrix S :=
  let I3 := m_identity 3 in
  let Rq := toRotationMatrix delta_q in
  let Rq' := toRotationMatrix result_delta_q in
  let V := m_zero 15 18 in
  let V := set_block 15 18 3 3 0 0 (0.25 *: Rq :* _dt :* _dt) V in
  let V := set_block 15 18 3 3 0 3
    (0.25 *: mneg 3 3 Rq' *m R_a_1_x :* _dt :* _dt :* 0.5 :* _dt) V in
  let V := set_block 15 18 3 3 0 6 (0.25 *: Rq' :* _dt :* _dt) V in
  let V := set_block 15 18 3 3 0 9 (block 3 3 0 3 V) V in
  let V := set_block 15 18 3 3 3 3 (0.5 *: I3 :* _dt) V in
  let V := set_block 15 18 3 3 3 9 (0.5 *: I3 :* _dt) V in
  let V := set_block 15 18 3 3 6 0 (0.5 *: Rq :* _dt) V in
  let V := set_block 15 18 3 3 6 3
    (0.5 *: mneg 3 3 Rq' *m R_a_1_x :* _dt :* 0.5 :* _dt) V in
  let V := set_block 15 18 3 3 6 6 (0.5 *: Rq' :* _dt) V in
  let V := set_block 15 18 3 3 6 9 (block 3 3 6 3 V) V in
  let V := set_block 15 18 3 3 9 12 (I3 :* _dt) V in
  let V := set_block 15 18 3 3 12 15 (I3 :* _dt) V in
  V.

(** [midPointIntegration].  The [const] reference parameters [delta_p] ..
    [linearized_bg] shadow the members of the same name; the members
    [jacobian], [covariance] and [noise] are read and written through
    [this]. *)
Definition midPointIntegration (_dt : S)
  (_acc_0 _gyr_0 _acc_1 _gyr_1 : Vector3d S)
  (delta_p : Vector3d S) (delta_q : Quaterniond S) (delta_v : Vector3d S)
  (linearized_ba linearized_bg : Vector3d S)
  (update_jacobian : bool) : M MidPointResult :=
  (* predict a(k+1) at point k with bias *)
  let un_acc_0 := qrot delta_q (_acc_0 -^ linearized_ba) in
  (* predict w_hat using midpoint method *)
  let un_gyr := 0.5 *^ (_gyr_0 +^ _gyr_1) -^ linearized_bg in
  (* gamma(k+1) = gamma(k) x (1, 0.5*w_hat*dt) *)
  let result_delta_q :=
    qmul delta_q
      (mkQuat 1 (vx un_gyr * _dt / 2) (vy un_gyr * _dt / 2) (vz un_gyr * _dt / 2)) in
  (* predict a(k+1) at point k+1 with bias *)
  let un_acc_1 := qrot result_delta_q (_acc_1 -^ linearized_ba) in
  (* predict a_hat using midpoint method *)
  let un_acc := 0.5 *^ (un_acc_0 +^ un_acc_1) in
  (* alpha(k+1) = alpha(k) + beta(k)*dt + 0.5*a_hat*dt*dt *)
  let result_delta_p := delta_p +^ delta_v ^* _dt +^ 0.5 *^ un_acc ^* _dt ^* _dt in
  (* beta(k+1) = beta(k) + a_hat*dt *)
  let result_delta_v := delta_v +^ un_acc ^* _dt in
  (* gyr bias unchange *)
  let result_linearized_ba := linearized_ba in
  let result_linearized_bg := linearized_bg in
  (if update_jacobian then
     let w_x := 0.5 *^ (_gyr_0 +^ _gyr_1) -^ linearized_bg in
     let a_0_x := _acc_0 -^ linearized_ba in
     let a_1_x := _acc_1 -^ linearized_ba in
     let R_w_x := skew w_x in
     let R_a_0_x := skew a_0_x in
     let R_a_1_x := skew a_1_x in
     let F := build_F _dt delta_q result_delta_q R_w_x R_a_0_x R_a_1_x in
     let V := build_V _dt delta_q result_delta_q R_a_1_x in
     (* jacobian update: J(k+1) = F*J(k) *)
     J <- read jacobian ;;
     assign set_jacobian (mmul 15 15 15 F J) ;;
     (* covariance update: P(k+1) = F*P(k)*F^T + V*Q*V^T *)
     P <- read covariance ;;
     Q <- read noise ;;
     assign set_covariance
       (madd 15 15
          (mmul 15 15 15 (mmul 15 15 15 F P) (mtranspose 15 15 F))
          (mmul 15 18 15 (mmul 15 18 18 V Q) (mtranspose 15 18 V)))
   else ret tt) ;;
  ret (mkMidPointResult result_delta_p result_delta_q result_delta_v
         result_linearized_ba result_linearized_bg).

(** [propagate]. *)
Definition propagate (_dt : S) (_acc_1 _gyr_1 : Vector3d S) : M unit :=
  assign set_dt _dt ;;
  assign set_acc_1 _acc_1 ;;
  assign set_gyr_1 _gyr_1 ;;
  a0 <- read acc_0 ;;
  g0 <- read gyr_0 ;;
  p <- read delta_p ;;
  q <- read delta_q ;;
  v <- read delta_v ;;
  ba <- read linearized_ba ;;
  bg <- read linearized_bg ;;
  r <- midPointIntegration _dt a0 g0 _acc_1 _gyr_1 p q v ba bg true ;;
  assign set_delta_p (result_delta_p r) ;;
  assign set_delta_q (result_delta_q r) ;;
  assign set_delta_v (result_delta_v r) ;;
  (* in fact, bias unchange(b_k = b_k+1), but covariance of bias change *)
  assign set_linearized_ba (result_linearized_ba r) ;;
  assign set_linearized_bg (result_linearized_bg r) ;;
  q' <- read delta_q ;;
  assign set_delta_q (q_normalize q') ;;
  t <- read sum_dt ;;
  d <- read dt ;;
  assign set_sum_dt (t + d) ;;
  a1 <- read acc_1 ;;
  assign set_acc_0 a1 ;;
  g1 <- read gyr_1 ;;
  assign set_gyr_0 g1.

(** [push_back]. *)
Definition push_back (dt : S) (acc gyr : Vector3d S) : M unit :=
  b <- read dt_buf ;;
  assign set_dt_buf (b ++ [dt]) ;;
  b <- read acc_buf ;;
  assign set_acc_buf (b ++ [acc]) ;;
  b <- read gyr_buf ;;
  assign set_gyr_buf (b ++ [gyr]) ;;
  propagate dt acc gyr.

(** The body of the [for] loop of [repropagate], run for the indices of
    [idx] in turn.  An index beyond [acc_buf] or [gyr_buf] is undefined
    behaviour in the source and reads a zero vector here; the three buffers
    have one length in every instance built by [push_back]. *)
Fixpoint replay (idx : list nat) : M unit :=
  match idx with
  | [] => ret tt
  | i :: idx' =>
      d <- read (fun s => nth i (dt_buf s) 0) ;;
      a <- read (fun s => nth i (acc_buf s) v3_zero) ;;
      g <- read (fun s => nth i (gyr_buf s) v3_zero) ;;
      propagate d a g ;;
      replay idx'
  end.

(** [repropagate].  The loop bound [dt_buf.size()] does not change while
    the loop runs ([propagate] leaves the buffers alone), so the loop visits
    [0 .. dt_buf.size() - 1]. *)
Definition repropagate (_linearized_ba _linearized_bg : Vector3d S) : M unit :=
  assign set_sum_dt 0 ;;
  a <- read linearized_acc ;;
  assign set_acc_0 a ;;
  g <- read linearized_gyr ;;
  assign set_gyr_0 g ;;
  assign set_delta_p v3_zero ;;
  assign set_delta_q q_identity ;;
  assign set_delta_v v3_zero ;;
  assign set_linearized_ba _linearized_ba ;;
  assign set_linearized_bg _linearized_bg ;;
  assign set_jacobian (m_identity 15) ;;
  assign set_covariance (m_zero 15 15) ;;
  n <- read (fun s => length (dt_buf s)) ;;
  replay (seq 0 n).

(** The coefficients of a 3-vector, as a segment of the residual. *)
Definition v3_coeffs (v : Vector3d S) : list S := [vx v; vy v; vz v].

(** [evaluate].  The 15 residuals are returned as the list of the five
    blocks at [O_P], [O_R], [O_V], [O_BA] and [O_BG]. *)
Definition evaluate (Pi : Vector3d S) (Qi : Quaterniond S) (Vi Bai Bgi : Vector3d S)
  (Pj : Vector3d S) (Qj : Quaterniond S) (Vj Baj Bgj : Vector3d S) : M (list S) :=
  J <- read jacobian ;;
  let dp_dba := block 3 3 O_P O_BA J in
  let dp_dbg := block 3 3 O_P O_BG J in
  let dq_dbg := block 3 3 O_R O_BG J in
  let dv_dba := block 3 3 O_V O_BA J in
  let dv_dbg := block 3 3 O_V O_BG J in
  lba <- read linearized_ba ;;
  lbg <- read linearized_bg ;;
  let dba := Bai -^ lba in
  let dbg := Bgi -^ lbg in
  dq <- read delta_q ;;
  dv <- read delta_v ;;
  dp <- read delta_p ;;
  t <- read sum_dt ;;
  (* update measurement use 1st order approximate under small perburbation *)
  let corrected_delta_q := qmul dq (deltaQ (mvmul3 dq_dbg dbg)) in
  let corrected_delta_v := dv +^ mvmul3 dv_dba dba +^ mvmul3 dv_dbg dbg in
  let corrected_delta_p := dp +^ mvmul3 dp_dba dba +^ mvmul3 dp_dbg dbg in
  let r_p :=
    qrot (q_inverse Qi) (0.5 *^ G ^* t ^* t +^ Pj -^ Pi -^ Vi ^* t)
    -^ corrected_delta_p in
  let r_r :=
    2 *^ q_vec (qmul (q_inverse corrected_delta_q) (qmul (q_inverse Qi) Qj)) in
  let r_v := qrot (q_inverse Qi) (G ^* t +^ Vj -^ Vi) -^ corrected_delta_v in
  let r_ba := Baj -^ Bai in
  let r_bg := Bgj -^ Bgi in
  ret (v3_coeffs r_p ++ v3_coeffs r_r ++ v3_coeffs r_v
       ++ v3_coeffs r_ba ++ v3_coeffs r_bg).

End IntegrationBase.

(** ** Callers: feeding samples, and the quantities the properties speak of *)

Section Callers.
Variable S : Scalar.

(** One inertial sample [(dt, acc, gyr)]. *)
Definition Sample : Type := (S * Vector3d S * Vector3d S)%type.

Definition push_sample (st : IntegrationBase S) (s : Sample) : IntegrationBase S :=
  exec (push_back (fst (fst s)) (snd (fst s)) (snd s)) st.

(** [push_back] of each sample in turn. *)
Definition push_all (ss : list Sample) (st : IntegrationBase S) : IntegrationBase S :=
  fold_left push_sample ss st.

Definition propagate_sample (st : IntegrationBase S) (s : Sample) : IntegrationBase S :=
  exec (propagate (fst (fst s)) (snd (fst s)) (snd s)) st.

(** [propagate] of each sample in turn, the buffers left alone. *)
Definition propagate_all (ss : list Sample) (st : IntegrationBase S) : IntegrationBase S :=
  fold_left propagate_sample ss st.

(** The mean bias-corrected angular rate of a step that starts in [st]. *)
Definition mean_rate (st : IntegrationBase S) (_gyr_1 : Vector3d S) : Vector3d S :=
  0.5 *^ (gyr_0 st +^ _gyr_1) -^ linearized_bg st.

(** The unnormalised small-angle quaternion [(1, w*dt/2)]. *)
Definition small_angle (w : Vector3d S) (_dt : S) : Quaterniond S :=
  mkQuat 1 (vx w * _dt / 2) (vy w * _dt / 2) (vz w * _dt / 2).

(** The orientation of a step once updated, before [propagate]
    renormalises it: [delta_q] times the small-angle quaternion. *)
Definition updated_q (st : IntegrationBase S) (_dt : S) (_gyr_1 : Vector3d S)
  : Quaterniond S :=
  qmul (delta_q st) (small_angle (mean_rate st _gyr_1) _dt).

(** The mean specific force of a step. *)
Definition a_mean (st : IntegrationBase S) (_dt : S) (_acc_1 _gyr_1 : Vector3d S)
  : Vector3d S :=
  0.5 *^ (qrot (delta_q st) (acc_0 st -^ linearized_ba st)
          +^ qrot (updated_q st _dt _gyr_1) (_acc_1 -^ linearized_ba st)).

(** The matrices [F] and [V] of a step that starts in [st]. *)
Definition F_of_step (st : IntegrationBase S) (_dt : S) (_acc_1 _gyr_1 : Vector3d S)
  : Matrix S :=
  build_F _dt (delta_q st) (updated_q st _dt _gyr_1)
    (skew (mean_rate st _gyr_1))
    (skew (acc_0 st -^ linearized_ba st))
    (skew (_acc_1 -^ linearized_ba st)).

Definition V_of_step (st : IntegrationBase S) (_dt : S) (_acc_1 _gyr_1 : Vector3d S)
  : Matrix S :=
  build_V _dt (delta_q st) (updated_q st _dt _gyr_1)
    (skew (_acc_1 -^ linearized_ba st)).

(** The Kalman prediction of a covariance [P] under transition [F], noise
    input [V] and noise covariance [Q]: [F P F^T + V Q V^T]. *)
Definition kalman_predict (F P V Q : Matrix S) : Matrix S :=
  madd 15 15
    (mmul 15 15 15 (mmul 15 15 15 F P) (mtranspose 15 15 F))
    (mmul 15 18 15 (mmul 15 18 18 V Q) (mtranspose 15 18 V)).

(** The three buffers of an instance after the samples [ss] were appended. *)
Definition with_buffers (ss : list Sample) (st : IntegrationBase S)
  : IntegrationBase S :=
  set_gyr_buf (gyr_buf st ++ map (fun s => snd s) ss)
    (set_acc_buf (acc_buf st ++ map (fun s => snd (fst s)) ss)
       (set_dt_buf (dt_buf st ++ map (fun s => fst (fst s)) ss) st)).

(** The instance as [repropagate] has it on entering its loop: the members
    assigned by lines 73-82, the others as they were. *)
Definition reset_state (_linearized_ba _linearized_bg : Vector3d S)
  (st : IntegrationBase S) : IntegrationBase S :=
  set_covariance (m_zero 15 15)
    (set_jacobian (m_identity 15)
       (set_linearized_bg _linearized_bg
          (set_linearized_ba _linearized_ba
             (set_delta_v v3_zero
                (set_delta_q q_identity
                   (set_delta_p v3_zero
                      (set_gyr_0 (linearized_gyr st)
                         (set_acc_0 (linearized_acc st)
                            (set_sum_dt 0 st))))))))).

(** The members [dt], [acc_1] and [gyr_1], which every [propagate]
    overwrites before it reads them. *)
Definition set_transient (d : S) (a g : Vector3d S) (st : IntegrationBase S)
  : IntegrationBase S :=
  set_gyr_1 g (set_acc_1 a (set_dt d st)).

(** The members no [propagate] changes. *)
Definition same_frame (st st' : IntegrationBase S) : Prop :=
  linearized_acc st' = linearized_acc st /\
  linearized_gyr st' = linearized_gyr st /\
  linearized_ba st' = linearized_ba st /\
  linearized_bg st' = linearized_bg st /\
  noise st' = noise st /\
  step_jacobian st' = step_jacobian st /\
  step_V st' = step_V st /\
  dt_buf st' = dt_buf st /\
  acc_buf st' = acc_buf st /\
  gyr_buf st' = gyr_buf st.

(** At rest: nothing integrated yet, and the left-endpoint sample equal to
    the biases. *)
Definition at_rest (st : IntegrationBase S) : Prop :=
  delta_p st = v3_zero /\ delta_v st = v3_zero /\ delta_q st = q_identity /\
  acc_0 st = linearized_ba st /\ gyr_0 st = linearized_bg st.

(** Samples that stay at the biases [ba] and [bg]. *)
Definition steady (ba bg : Vector3d S) (s : Sample) : Prop :=
  snd (fst s) = ba /\ snd s = bg.

(** A call is rejected when it refuses to run.  The member functions are
    [void], throw nothing and return no code, so all a rejection can mean
    for them is that the instance is left as it was: nothing integrated,
    nothing buffered. *)
Definition rejected (m : M S unit) (st : IntegrationBase S) : Prop :=
  exec m st = st.

End Callers.

(** ** The instances the interface builds *)

Section Reachability.
Variable S : Scalar.
Variable deltaQ : Vector3d S -> Quaterniond S.

(** What construction from the first sample [a0], [g0] followed by any
    calls of [push_back], [repropagate] and [evaluate] arrives at. *)
Inductive reachable (un : Uninit S) (a0 g0 : Vector3d S)
  : IntegrationBase S -> Prop :=
| reach_new ba bg :
    reachable un a0 g0 (IntegrationBase_new un a0 g0 ba bg)
| reach_push_back st d a g :
    reachable un a0 g0 st -> reachable un a0 g0 (exec (push_back d a g) st)
| reach_repropagate st ba bg :
    reachable un a0 g0 st -> reachable un a0 g0 (exec (repropagate ba bg) st)
| reach_evaluate st Pi Qi Vi Bai Bgi Pj Qj Vj Baj Bgj :
    reachable un a0 g0 st ->
    reachable un a0 g0
      (exec (evaluate deltaQ Pi Qi Vi Bai Bgi Pj Qj Vj Baj Bgj) st).

(** The members the orientation of the next step is computed from. *)
Definition same_rotation (st st' : IntegrationBase S) : Prop :=
  delta_q st = delta_q st' /\ gyr_0 st = gyr_0 st' /\
  linearized_bg st = linearized_bg st'.

(** Modelled from the spec: [msckf_vio::deltaQ] of
    [msckf_vio/math_utils.hpp], which is not among the sources.  The spec
    calls it the small rotation of a rotation vector and gives the
    small-angle quaternion as [(1, theta/2)].  It only serves to run
    [evaluate] on concrete instances. *)
Definition deltaQ_small (theta : Vector3d S) : Quaterniond S :=
  mkQuat 1 (vx theta / 2) (vy theta / 2) (vz theta / 2).

(** Coasting: no rotation so far, and the integrated velocity and position
    those of the constant bias-corrected force of the left-endpoint
    sample. *)
Definition coasting (st : IntegrationBase S) : Prop :=
  delta_p st
  = 0.5 *^ (acc_0 st -^ linearized_ba st) ^* sum_dt st ^* sum_dt st /\
  delta_v st = (acc_0 st -^ linearized_ba st) ^* sum_dt st /\
  delta_q st = q_identity /\
  gyr_0 st = linearized_bg st.

(** The squared elapsed times of the samples, added up from [t] in order. *)
Definition add_sq_dts (ss : list (Sample S)) (t : S) : S :=
  fold_left (fun t s => t + fst (fst s) * fst (fst s)) ss t.

(** The elapsed times of the samples, added up from [t] in order. *)
Definition add_dts (ss : list (Sample S)) (t : S) : S :=
  fold_left (fun t s => t + fst (fst s)) ss t.

End Reachability.

Arguments deltaQ_small {S} theta.

(** ** Two arithmetics: IEEE binary64 and the real numbers *)

(** The integer [z] as a [double]; exact for [|z| < 2^53]. *)
Definition float_of_Z (z : Z) : float :=
  match z with
  | Z0 => PrimFloat.zero
  | Zpos _ => PrimFloat.of_uint63 (Uint63.of_Z z)
  | Zneg p => PrimFloat.opp (PrimFloat.of_uint63 (Uint63.of_Z (Zpos p)))
  end.

(** A decimal literal of the source as the nearest [double]: numerator and
    denominator of the literals at hand are exact, and the division rounds
    to nearest. *)
Definition float_lit (q : Q) : float :=
  PrimFloat.div (float_of_Z (Qnum q)) (float_of_Z (Zpos (Qden q))).

(** [double], with the operations of IEEE 754 binary64. *)
Canonical FloatScalar : Scalar :=
  mkScalar float_lit PrimFloat.add PrimFloat.sub PrimFloat.mul PrimFloat.div
    PrimFloat.opp PrimFloat.sqrt PrimFloat.ltb.

Definition Rltb (x y : R) : bool := if Rlt_dec x y then true else false.

(** The real numbers: the arithmetic [double] approximates. *)
Canonical RScalar : Scalar :=
  mkScalar Q2R Rplus Rminus Rmult Rdiv Ropp R_sqrt.sqrt Rltb.

(** The laws of exact arithmetic: an ordered field with square roots of
    the non-negative elements; [le] is its order. *)
Record ExactArith (S : Scalar) (le : S -> S -> Prop) : Prop := mkExactArith {
  ea_ring : ring_theory (R := S) 0 1 sadd smul ssub sneg eq;
  ea_one_neq_zero : (1 : S) <> 0;
  ea_two : (2 : S) = 1 + 1;
  ea_half : (0.5 : S) * 2 = 1;
  ea_div : forall x y : S, y <> 0 -> x / y * y = x;
  ea_le_refl : forall x : S, le x x;
  ea_le_antisym : forall x : S, le 0 x -> le 0 (- x) -> x = 0;
  ea_le_add : forall x y : S, le 0 x -> le 0 y -> le 0 (x + y);
  ea_le_mul : forall x y : S, le 0 x -> le 0 y -> le 0 (x * y);
  ea_le_sq : forall x : S, le 0 (x * x);
  ea_ltb : forall x y : S, sltb x y = true <-> (le x y /\ x <> y);
  ea_sqrt : forall x : S, le 0 x -> le 0 (ssqrt x) /\ ssqrt x * ssqrt x = x
}.

(** ** Concrete instances over the two arithmetics *)

Definition fvec (x y z : Q) : Vector3d FloatScalar :=
  mkV3 (float_lit x) (float_lit y) (float_lit z).

Definition float_uninit : Uninit FloatScalar :=
  mkUninit (S := FloatScalar) (float_lit 0) (fvec 0 0 0) (fvec 0 0 0) [] [].

Definition rvec (x y z : Q) : Vector3d RScalar :=
  mkV3 (Q2R x) (Q2R y) (Q2R z).

Definition real_uninit : Uninit RScalar :=
  mkUninit (S := RScalar) (Q2R 0) (rvec 0 0 0) (rvec 0 0 0) [] [].

(** A stationary sensor over binary64: zero biases, zero angular rate and
    the gravity vector as specific force. *)
Definition stationary : IntegrationBase FloatScalar :=
  IntegrationBase_new float_uninit (G FloatScalar) (fvec 0 0 0)
    (fvec 0 0 0) (fvec 0 0 0).

(** A sensor turning about its x axis at 1.5 rad/s, after one step of 1 s. *)
Definition turned : IntegrationBase FloatScalar :=
  push_all [(float_lit 1, fvec 0 0 9.81, fvec 1.5 0 0)]
    (IntegrationBase_new float_uninit (fvec 0 0 9.81) (fvec 1.5 0 0)
       (fvec 0 0 0) (fvec 0 0 0)).

(** The turning sensor once re-propagated with other biases. *)
Definition replayed : IntegrationBase FloatScalar :=
  exec (repropagate (fvec 0.01 0 0) (fvec 0 0 0.001)) turned.

(** A sensor at rest over the reals, fed one sample. *)
Definition real_fed : IntegrationBase RScalar :=
  push_all [(Q2R 0.01, rvec 0.1 0.2 9.81, rvec 1.5 0 0)]
    (IntegrationBase_new real_uninit (rvec 0 0 9.81) (rvec 0 0 0)
       (rvec 0 0 0) (rvec 0 0 0)).

(** ** Symmetric and positive-semidefinite matrices *)

Section Forms.
Variable S : Scalar.

(** The row vector [x^T A] for [A] with [n] rows. *)
Definition vm (n : nat) (x : nat -> S) (A : Matrix S) : nat -> S :=
  fun l => sum n (fun i => x i * mget A i l).

Definition dotp (n : nat) (u v : nat -> S) : S :=
  sum n (fun l => u l * v l).

(** The quadratic form [x^T A x] of an [n x n] matrix. *)
Definition quad_form (n : nat) (A : Matrix S) (x : nat -> S) : S :=
  dotp n (vm n x A) x.

Definition symmetric (n : nat) (A : Matrix S) : Prop :=
  forall i j, (i < n)%nat -> (j < n)%nat -> mget A i j = mget A j i.

Definition psd (le : S -> S -> Prop) (n : nat) (A : Matrix S) : Prop :=
  forall x : nat -> S, le 0 (quad_form n A x).

Definition unit_quaternion (q : Quaterniond S) : Prop :=
  q_squaredNorm q = 1.

(** The vector [v] as the quaternion [(0, v)]. *)
Definition pure_quat (v : Vector3d S) : Quaterniond S :=
  mkQuat 0 (vx v) (vy v) (vz v).

(** The entry [(i, j)] of an identity matrix. *)
Definition kron (i j : nat) : S := if Nat.eqb i j then 1 else 0.

(** The noise densities along the diagonal of the noise matrix. *)
Definition density (i : nat) : S :=
  nth (i / 3) [ACC_N S; GYR_N S; ACC_N S; GYR_N S; ACC_W S; GYR_W S] 0.

(** [A] has [n] rows of [m] entries. *)
Definition shape (n m : nat) (A : Matrix S) : Prop :=
  length A = n /\ Forall (fun r => length r = m) A.

(** The covariance and the noise matrix are symmetric positive-semidefinite. *)
Definition covariance_ok (le : S -> S -> Prop) (st : IntegrationBase S) : Prop :=
  symmetric 15 (covariance st) /\ psd le 15 (covariance st) /\
  symmetric 18 (noise st) /\ psd le 18 (noise st).


(** What the jacobian keeps: identity rows for the biases, identity
    columns for the position, and [sum_dt] times the identity as the
    sensitivity of the position to the velocity. *)
Definition jacobian_ok (st : IntegrationBase S) : Prop :=
  (forall i j, (9 <= i < 15)%nat -> (j < 15)%nat ->
     mget (jacobian st) i j = kron i j) /\
  (forall i j, (i < 15)%nat -> (j < 3)%nat ->
     mget (jacobian st) i j = kron i j) /\
  (forall i b, (i < 15)%nat -> (b < 3)%nat ->
     mget (jacobian st) i (6 + b)
     = if (i <? 3)%nat then kron i b * sum_dt st else kron i (6 + b)).

(** The bias block of the covariance is [c] times the squared random-walk
    densities on its diagonal, and the noise matrix is the diagonal one of
    construction. *)
Definition covariance_bias_ok (c : S) (st : IntegrationBase S) : Prop :=
  (forall i j, (9 <= i < 15)%nat -> (9 <= j < 15)%nat ->
     mget (covariance st) i j
     = kron i j * (density (i + 3) * density (i + 3)) * c) /\
  (forall i j, (i < 18)%nat -> (j < 18)%nat ->
     mget (noise st) i j
     = if Nat.eqb i j then density i * density i else 0).

End Forms.

Arguments dotp {S} n u v.
Arguments kron {S} i j.

(** ** Properties that hold for every scalar arithmetic *)

(** Running the member functions on an instance given by its members. *)
Ltac run_methods :=
  cbv [exec eval push_back propagate repropagate midPointIntegration bind ret read assign
       fst snd with_buffers set_transient reset_state
       set_dt set_acc_0 set_gyr_0 set_acc_1 set_gyr_1 set_linearized_ba
       set_linearized_bg set_jacobian set_covariance set_noise set_sum_dt
       set_delta_p set_delta_q set_delta_v set_dt_buf set_acc_buf set_gyr_buf
       dt acc_0 gyr_0 acc_1 gyr_1 linearized_acc linearized_gyr linearized_ba
       linearized_bg jacobian covariance step_jacobian step_V
       noise sum_dt delta_p delta_q delta_v dt_buf acc_buf gyr_buf
       result_delta_p result_delta_q result_delta_v result_linearized_ba
       result_linearized_bg
       a_mean updated_q mean_rate small_angle F_of_step V_of_step kalman_predict].

Ltac by_running st := destruct st; run_methods; reflexivity.

Section Structural.
Variable S : Scalar.
Variable deltaQ : Vector3d S -> Quaterniond S.
Implicit Types (st : IntegrationBase S) (ss : list (Sample S)).

Lemma propagate_delta_p st _dt _acc_1 _gyr_1 :
  delta_p (exec (propagate _dt _acc_1 _gyr_1) st)
  = delta_p st +^ delta_v st ^* _dt +^ 0.5 *^ a_mean st _dt _acc_1 _gyr_1 ^* _dt ^* _dt.
Proof. by_running st. Qed.

Lemma propagate_delta_v st _dt _acc_1 _gyr_1 :
  delta_v (exec (propagate _dt _acc_1 _gyr_1) st)
  = delta_v st +^ a_mean st _dt _acc_1 _gyr_1 ^* _dt.
Proof. by_running st. Qed.

Lemma propagate_delta_q st _dt _acc_1 _gyr_1 :
  delta_q (exec (propagate _dt _acc_1 _gyr_1) st)
  = q_normalize (updated_q st _dt _gyr_1).
Proof. by_running st. Qed.

Lemma propagate_jacobian st _dt _acc_1 _gyr_1 :
  jacobian (exec (propagate _dt _acc_1 _gyr_1) st)
  = mmul 15 15 15 (F_of_step st _dt _acc_1 _gyr_1) (jacobian st).
Proof. by_running st. Qed.

Lemma propagate_covariance st _dt _acc_1 _gyr_1 :
  covariance (exec (propagate _dt _acc_1 _gyr_1) st)
  = kalman_predict (F_of_step st _dt _acc_1 _gyr_1) (covariance st)
      (V_of_step st _dt _acc_1 _gyr_1) (noise st).
Proof. by_running st. Qed.

Lemma propagate_sum_dt st _dt _acc_1 _gyr_1 :
  sum_dt (exec (propagate _dt _acc_1 _gyr_1) st) = sum_dt st + _dt.
Proof. by_running st. Qed.

(** *** [push_back] is [propagate] on a longer buffer *)

Lemma push_back_propagate st d a g :
  exec (push_back d a g) st = exec (propagate d a g) (with_buffers [(d, a, g)] st).
Proof. by_running st. Qed.

Lemma propagate_with_buffers ss st d a g :
  exec (propagate d a g) (with_buffers ss st)
  = with_buffers ss (exec (propagate d a g) st).
Proof. by_running st. Qed.

Lemma with_buffers_app ss1 ss2 st :
  with_buffers ss2 (with_buffers ss1 st) = with_buffers (ss1 ++ ss2) st.
Proof.
  destruct st; unfold with_buffers; simpl.
  now rewrite !map_app, !app_assoc.
Qed.

Lemma propagate_all_cons s ss st :
  propagate_all (s :: ss) st = propagate_all ss (propagate_sample st s).
Proof. unfold propagate_all. cbn [fold_left]. reflexivity. Qed.

Lemma push_all_cons s ss st :
  push_all (s :: ss) st = push_all ss (push_sample st s).
Proof. unfold push_all. cbn [fold_left]. reflexivity. Qed.

Lemma propagate_all_with_buffers ss' ss st :
  propagate_all ss (with_buffers ss' st) = with_buffers ss' (propagate_all ss st).
Proof.
  revert st; induction ss as [|[[d a] g] ss IH]; intros st; [reflexivity|].
  rewrite !propagate_all_cons.
  unfold propagate_sample; cbn [fst snd].
  rewrite propagate_with_buffers. apply IH.
Qed.

Lemma with_buffers_nil st : with_buffers [] st = st.
Proof. destruct st; run_methods; cbn [map]. now rewrite !app_nil_r. Qed.

Lemma push_all_propagate_all ss st :
  push_all ss st = with_buffers ss (propagate_all ss st).
Proof.
  revert st; induction ss as [|[[d a] g] ss IH]; intros st.
  - symmetry; apply with_buffers_nil.
  - rewrite push_all_cons, propagate_all_cons, IH.
    unfold push_sample, propagate_sample; cbn [fst snd].
    rewrite push_back_propagate, propagate_with_buffers.
    rewrite propagate_all_with_buffers, with_buffers_app. reflexivity.
Qed.

(** *** What [propagate] leaves alone *)

Lemma propagate_frame st d a g : same_frame st (exec (propagate d a g) st).
Proof. repeat split; by_running st. Qed.

Lemma propagate_all_frame ss st : same_frame st (propagate_all ss st).
Proof.
  revert st; induction ss as [|[[d a] g] ss IH]; intros st.
  - repeat split.
  - rewrite propagate_all_cons.
    specialize (IH (propagate_sample st (d, a, g))).
    pose proof (propagate_frame st d a g) as H0.
    unfold same_frame, propagate_sample in *; cbn [fst snd] in *.
    decompose [and] IH; decompose [and] H0; clear IH H0.
    repeat split; etransitivity; eassumption.
Qed.

Lemma propagate_set_transient st d a g d' a' g' :
  exec (propagate d a g) (set_transient d' a' g' st) = exec (propagate d a g) st.
Proof. by_running st. Qed.

(** *** [repropagate] replays the buffered samples *)

Lemma replay_cons i idx st :
  exec (replay (i :: idx)) st
  = exec (replay idx)
      (exec (propagate (nth i (dt_buf st) 0) (nth i (acc_buf st) v3_zero)
               (nth i (gyr_buf st) v3_zero)) st).
Proof. unfold exec; cbn [replay]; unfold bind, read; reflexivity. Qed.

Lemma replay_buffers pre ss st :
  dt_buf st = map (fun s => fst (fst s)) (pre ++ ss) ->
  acc_buf st = map (fun s => snd (fst s)) (pre ++ ss) ->
  gyr_buf st = map (fun s => snd s) (pre ++ ss) ->
  exec (replay (seq (length pre) (length ss))) st = propagate_all ss st.
Proof.
  revert pre st; induction ss as [|[[d a] g] ss IH]; intros pre st Hd Ha Hg.
  - reflexivity.
  - cbn [length seq]. rewrite replay_cons, propagate_all_cons.
    assert (Ed : nth (length pre) (dt_buf st) 0 = d).
    { rewrite Hd, map_app. cbn [map fst].
      rewrite <- (length_map (fun s : Sample S => fst (fst s)) pre).
      apply nth_middle. }
    assert (Ea : nth (length pre) (acc_buf st) v3_zero = a).
    { rewrite Ha, map_app. cbn [map fst snd].
      rewrite <- (length_map (fun s : Sample S => snd (fst s)) pre).
      apply nth_middle. }
    assert (Eg : nth (length pre) (gyr_buf st) v3_zero = g).
    { rewrite Hg, map_app. cbn [map snd].
      rewrite <- (length_map (fun s : Sample S => snd s) pre).
      apply nth_middle. }
    rewrite Ed, Ea, Eg.
    destruct (propagate_frame st d a g) as (_ & _ & _ & _ & _ & _ & _ & Fd & Fa & Fg).
    replace (Datatypes.S (length pre)) with (length (pre ++ [(d, a, g)]))
      by (rewrite length_app; cbn [length]; lia).
    unfold propagate_sample; cbn [fst snd].
    apply IH; rewrite <- app_assoc; cbn [app]; congruence.
Qed.

Lemma repropagate_unfold ba bg st :
  exec (repropagate ba bg) st
  = exec (replay (seq 0 (length (dt_buf st)))) (reset_state ba bg st).
Proof. by_running st. Qed.

Lemma reset_pushed u a0 g0 ba bg ba' bg' ss :
  let st := push_all ss (IntegrationBase_new u a0 g0 ba bg) in
  reset_state ba' bg' st
  = set_transient (dt st) (acc_1 st) (gyr_1 st)
      (with_buffers ss (IntegrationBase_new u a0 g0 ba' bg')).
Proof.
  intros st; subst st. rewrite push_all_propagate_all.
  pose proof (propagate_all_frame ss (IntegrationBase_new u a0 g0 ba bg)) as H.
  destruct (propagate_all ss (IntegrationBase_new u a0 g0 ba bg)).
  unfold same_frame in H.
  cbv [IntegrationBase_new set_noise dt acc_0 gyr_0 acc_1 gyr_1 linearized_acc
       linearized_gyr linearized_ba linearized_bg jacobian covariance
       step_jacobian step_V noise sum_dt delta_p delta_q delta_v dt_buf
       acc_buf gyr_buf] in H.
  decompose [and] H; clear H; subst.
  run_methods. cbv [IntegrationBase_new]. run_methods. reflexivity.
Qed.

Lemma pushed_buffers u a0 g0 ba bg ss :
  let st := push_all ss (IntegrationBase_new u a0 g0 ba bg) in
  dt_buf st = map (fun s => fst (fst s)) ss /\
  acc_buf st = map (fun s => snd (fst s)) ss /\
  gyr_buf st = map (fun s => snd s) ss.
Proof.
  intros st; subst st. rewrite push_all_propagate_all.
  destruct (propagate_all_frame ss (IntegrationBase_new u a0 g0 ba bg))
    as (_ & _ & _ & _ & _ & _ & _ & Fd & Fa & Fg).
  destruct (propagate_all ss (IntegrationBase_new u a0 g0 ba bg)).
  cbv [IntegrationBase_new set_noise dt_buf acc_buf gyr_buf] in Fd, Fa, Fg.
  subst. run_methods. auto.
Qed.

(** Re-propagating an instance fed with [ss] gives the instance that fresh
    construction with the new biases and the same feeding gives. *)
Lemma repropagate_replays u a0 g0 ba bg ba' bg' ss :
  exec (repropagate ba' bg') (push_all ss (IntegrationBase_new u a0 g0 ba bg))
  = push_all ss (IntegrationBase_new u a0 g0 ba' bg').
Proof.
  rewrite repropagate_unfold.
  destruct (pushed_buffers u a0 g0 ba bg ss) as (Hd & Ha & Hg).
  rewrite Hd, length_map.
  change 0%nat with (length (@nil (Sample S))).
  rewrite replay_buffers.
  - rewrite reset_pushed. destruct ss as [|[[d a] g] ss].
    + cbv [push_all fold_left IntegrationBase_new]. run_methods. reflexivity.
    + rewrite propagate_all_cons.
      assert (E : forall d' a' g' x,
                 propagate_sample (set_transient d' a' g' x) (d, a, g)
                 = propagate_sample x (d, a, g))
        by (intros; apply propagate_set_transient).
      rewrite E, <- propagate_all_cons, propagate_all_with_buffers.
      symmetry; apply push_all_propagate_all.
  - cbn [app]; rewrite <- Hd. by_running (push_all ss (IntegrationBase_new u a0 g0 ba bg)).
  - cbn [app]; rewrite <- Ha. by_running (push_all ss (IntegrationBase_new u a0 g0 ba bg)).
  - cbn [app]; rewrite <- Hg. by_running (push_all ss (IntegrationBase_new u a0 g0 ba bg)).
Qed.

Lemma pushed_biases u a0 g0 ba bg ss :
  let st := push_all ss (IntegrationBase_new u a0 g0 ba bg) in
  linearized_ba st = ba /\ linearized_bg st = bg /\
  linearized_acc st = a0 /\ linearized_gyr st = g0.
Proof.
  intros st; subst st. rewrite push_all_propagate_all.
  destruct (propagate_all_frame ss (IntegrationBase_new u a0 g0 ba bg))
    as (F1 & F2 & F3 & F4 & _).
  destruct (propagate_all ss (IntegrationBase_new u a0 g0 ba bg)).
  cbv [IntegrationBase_new set_noise linearized_acc linearized_gyr
       linearized_ba linearized_bg] in F1, F2, F3, F4.
  subst. run_methods. auto.
Qed.

End Structural.

(** ** Entries of the matrix operations *)

Section Entries.
Variable S : Scalar.
Implicit Types (A B : Matrix S).

Lemma mget_mk_matrix n m (f : nat -> nat -> S) i j :
  (i < n)%nat -> (j < m)%nat -> mget (mk_matrix n m f) i j = f i j.
Proof.
  intros Hi Hj. unfold mget, mk_matrix.
  rewrite (nth_indep _ [] (map (fun j0 => f 0%nat j0) (seq 0 m)))
    by (rewrite length_map, length_seq; exact Hi).
  rewrite (map_nth (fun i0 => map (fun j0 => f i0 j0) (seq 0 m))).
  rewrite seq_nth by exact Hi. cbn [Nat.add].
  rewrite (nth_indep _ 0 (f i 0%nat))
    by (rewrite length_map, length_seq; exact Hj).
  rewrite (map_nth (fun j0 => f i j0)).
  rewrite seq_nth by exact Hj. reflexivity.
Qed.

Lemma mget_mmul n k m A B i j :
  (i < n)%nat -> (j < m)%nat ->
  mget (mmul n k m A B) i j = sum k (fun l => mget A i l * mget B l j).
Proof. intros; unfold mmul; now rewrite mget_mk_matrix. Qed.

Lemma mget_madd n m A B i j :
  (i < n)%nat -> (j < m)%nat ->
  mget (madd n m A B) i j = mget A i j + mget B i j.
Proof. intros; unfold madd; now rewrite mget_mk_matrix. Qed.

Lemma mget_mtranspose n m A i j :
  (i < m)%nat -> (j < n)%nat -> mget (mtranspose n m A) i j = mget A j i.
Proof. intros; unfold mtranspose; now rewrite mget_mk_matrix. Qed.

Lemma mget_m_zero n m i j :
  (i < n)%nat -> (j < m)%nat -> mget (m_zero n m : Matrix S) i j = 0.
Proof. intros; unfold m_zero; now rewrite mget_mk_matrix. Qed.

Lemma sum_ext n (f g : nat -> S) :
  (forall k, (k < n)%nat -> f k = g k) -> sum n f = sum n g.
Proof.
  induction n as [|n IH]; intros H; [reflexivity|].
  cbn [sum]. rewrite IH, H by auto. reflexivity.
Qed.

End Entries.

(** ** Properties of exact arithmetic *)

Section Exact.
Variable S : Scalar.
Variable le : S -> S -> Prop.
Hypothesis EA : ExactArith S le.
Implicit Types (A B P : Matrix S) (x y u v : nat -> S).

Add Ring scalar_ring : (ea_ring EA).

Lemma sum_zero n : sum n (fun _ => (0 : S)) = 0.
Proof. induction n as [|n IH]; cbn [sum]; [reflexivity|]. rewrite IH; ring. Qed.

Lemma sum_add n u v : sum n (fun k => u k + v k) = sum n u + sum n v.
Proof. induction n as [|n IH]; cbn [sum]; [ring|]. rewrite IH; ring. Qed.

Lemma sum_scal_l n (c : S) u : sum n (fun k => c * u k) = c * sum n u.
Proof. induction n as [|n IH]; cbn [sum]; [ring|]. rewrite IH; ring. Qed.

Lemma sum_scal_r n (c : S) u : sum n (fun k => u k * c) = sum n u * c.
Proof. induction n as [|n IH]; cbn [sum]; [ring|]. rewrite IH; ring. Qed.

Lemma sum_swap n m (f : nat -> nat -> S) :
  sum n (fun i => sum m (fun j => f i j)) = sum m (fun j => sum n (fun i => f i j)).
Proof.
  induction n as [|n IH]; cbn [sum].
  - now rewrite sum_zero.
  - now rewrite sum_add, IH.
Qed.

Lemma sum_nonneg n u :
  (forall k, (k < n)%nat -> le 0 (u k)) -> le 0 (sum n u).
Proof.
  induction n as [|n IH]; intros H; cbn [sum].
  - apply (ea_le_refl EA).
  - apply (ea_le_add EA); auto.
Qed.

(** [(u^T B) v = u^T (B v)]. *)
Lemma sum_assoc n k u (b : nat -> nat -> S) v :
  sum k (fun l => sum n (fun m => u m * b m l) * v l)
  = sum n (fun m => u m * sum k (fun l => b m l * v l)).
Proof.
  rewrite (@sum_ext S k _ (fun l => sum n (fun m => u m * b m l * v l)))
    by (intros; now rewrite sum_scal_r).
  rewrite sum_swap. apply sum_ext; intros m _.
  rewrite <- sum_scal_l. apply sum_ext; intros; ring.
Qed.

Lemma vm_mmul n k m x A B l :
  (l < m)%nat -> vm n x (mmul n k m A B) l = vm k (vm n x A) B l.
Proof.
  intros Hl. unfold vm.
  rewrite (@sum_ext S n _ (fun i => x i * sum k (fun j => mget A i j * mget B j l)))
    by (intros; now rewrite mget_mmul).
  symmetry. apply sum_assoc.
Qed.

Lemma dotp_vm_transpose n k w A x :
  dotp n (vm k w (mtranspose n k A)) x = dotp k w (vm n x A).
Proof.
  unfold dotp, vm.
  rewrite (sum_assoc k n w (fun i l => mget (mtranspose n k A) i l) x).
  apply sum_ext; intros i Hi. f_equal.
  apply sum_ext; intros j Hj. rewrite mget_mtranspose by assumption. ring.
Qed.

(** [x^T (A P A^T) x = (x^T A) P (x^T A)^T]. *)
Lemma quad_form_congruence n k A P x :
  quad_form n (mmul n k n (mmul n k k A P) (mtranspose n k A)) x
  = quad_form k P (vm n x A).
Proof.
  unfold quad_form.
  transitivity (dotp n (vm k (vm n x (mmul n k k A P)) (mtranspose n k A)) x).
  { unfold dotp. apply sum_ext; intros l Hl. now rewrite vm_mmul. }
  rewrite dotp_vm_transpose. unfold dotp.
  apply sum_ext; intros l Hl. now rewrite vm_mmul.
Qed.

Lemma quad_form_madd n A B x :
  quad_form n (madd n n A B) x = quad_form n A x + quad_form n B x.
Proof.
  unfold quad_form, dotp. rewrite <- sum_add.
  apply sum_ext; intros l Hl. unfold vm.
  rewrite (@sum_ext S n _ (fun i => x i * mget A i l + x i * mget B i l))
    by (intros; rewrite mget_madd by assumption; ring).
  rewrite sum_add. ring.
Qed.

Lemma psd_congruence n k A P :
  psd le k P -> psd le n (mmul n k n (mmul n k k A P) (mtranspose n k A)).
Proof. intros H x. rewrite quad_form_congruence. apply H. Qed.

Lemma psd_madd n A B : psd le n A -> psd le n B -> psd le n (madd n n A B).
Proof.
  intros HA HB x. rewrite quad_form_madd. apply (ea_le_add EA); auto.
Qed.

Lemma psd_m_zero n : psd le n (m_zero n n).
Proof.
  intros x. unfold quad_form, dotp.
  rewrite (@sum_ext S n _ (fun _ => 0)).
  - rewrite sum_zero. apply (ea_le_refl EA).
  - intros l Hl. unfold vm.
    rewrite (@sum_ext S n _ (fun _ => 0)).
    + rewrite sum_zero. ring.
    + intros i Hi. rewrite mget_m_zero by assumption. ring.
Qed.

Lemma symmetric_m_zero n : symmetric n (m_zero n n : Matrix S).
Proof. intros i j Hi Hj. now rewrite !mget_m_zero. Qed.

Lemma symmetric_madd n A B :
  symmetric n A -> symmetric n B -> symmetric n (madd n n A B).
Proof.
  intros HA HB i j Hi Hj. rewrite !mget_madd by assumption.
  now rewrite HA, HB.
Qed.

Lemma symmetric_congruence n k A P :
  symmetric k P -> symmetric n (mmul n k n (mmul n k k A P) (mtranspose n k A)).
Proof.
  intros HP i j Hi Hj. rewrite !mget_mmul by assumption.
  transitivity (sum k (fun l => sum k (fun m => mget A i m * mget P m l) * mget A j l)).
  { apply sum_ext; intros l Hl.
    rewrite mget_mmul, mget_mtranspose by assumption. reflexivity. }
  transitivity (sum k (fun l => sum k (fun m => mget A j m * mget P m l) * mget A i l)).
  2:{ apply sum_ext; intros l Hl.
      rewrite mget_mmul, mget_mtranspose by assumption. reflexivity. }
  rewrite sum_assoc.
  rewrite (@sum_ext S k _ (fun l => sum k (fun m => mget A j m * mget P m l) * mget A i l)).
  - reflexivity.
  - intros l Hl. rewrite <- sum_scal_r. rewrite <- sum_scal_l.
    apply sum_ext; intros m Hm. rewrite (HP l m) by assumption. ring.
Qed.

(** *** The noise matrix of the constructor *)

Ltac noise_entries :=
  lazy [quad_form dotp vm sum mget nth mk_matrix map seq set_block smmul
        m_identity m_zero Nat.leb Nat.ltb Nat.eqb Nat.add Nat.sub andb
        noise IntegrationBase_new set_noise].

Lemma noise_symmetric (un : Uninit S) a0 g0 ba bg :
  symmetric 18 (noise (IntegrationBase_new un a0 g0 ba bg)).
Proof.
  intros i j Hi Hj.
  do 18 (destruct i as [|i];
         [do 18 (destruct j as [|j]; [noise_entries; reflexivity|]);
          exfalso; lia|]).
  exfalso; lia.
Qed.

Ltac noise_square c :=
  noise_entries;
  match goal with
  | |- le _ (?e * ?xj) =>
      replace (e * xj) with ((c * xj) * (c * xj)) by ring
  end;
  apply (ea_le_sq EA).

Lemma noise_psd (un : Uninit S) a0 g0 ba bg :
  psd le 18 (noise (IntegrationBase_new un a0 g0 ba bg)).
Proof.
  intros x. unfold quad_form, dotp. apply sum_nonneg. intros j Hj.
  do 3 (destruct j as [|j]; [noise_square (ACC_N S)|]).
  do 3 (destruct j as [|j]; [noise_square (GYR_N S)|]).
  do 3 (destruct j as [|j]; [noise_square (ACC_N S)|]).
  do 3 (destruct j as [|j]; [noise_square (GYR_N S)|]).
  do 3 (destruct j as [|j]; [noise_square (ACC_W S)|]).
  do 3 (destruct j as [|j]; [noise_square (GYR_W S)|]).
  exfalso; lia.
Qed.

Lemma noise_diagonal (un : Uninit S) a0 g0 ba bg i j :
  (i < 18)%nat -> (j < 18)%nat ->
  mget (noise (IntegrationBase_new un a0 g0 ba bg)) i j
  = if Nat.eqb i j then density S i * density S i else 0.
Proof.
  intros Hi Hj.
  do 18 (destruct i as [|i];
         [do 18 (destruct j as [|j];
                 [noise_entries; cbv [density Nat.div Nat.divmod fst nth Nat.eqb];
                  ring|]);
          exfalso; lia|]).
  exfalso; lia.
Qed.

(** *** The covariance stays symmetric and positive-semidefinite *)

Lemma kalman_predict_ok F P V Q :
  symmetric 15 P -> psd le 15 P -> symmetric 18 Q -> psd le 18 Q ->
  symmetric 15 (kalman_predict F P V Q) /\ psd le 15 (kalman_predict F P V Q).
Proof.
  intros sP pP sQ pQ. unfold kalman_predict. split.
  - apply symmetric_madd; apply symmetric_congruence; assumption.
  - apply psd_madd; apply psd_congruence; assumption.
Qed.

Lemma propagate_covariance_ok (st : IntegrationBase S) d a g :
  covariance_ok le st -> covariance_ok le (exec (propagate d a g) st).
Proof.
  intros (sP & pP & sQ & pQ). unfold covariance_ok.
  rewrite propagate_covariance.
  destruct (propagate_frame st d a g) as (_ & _ & _ & _ & -> & _).
  destruct (kalman_predict_ok (F_of_step st d a g) (V_of_step st d a g) sP pP sQ pQ).
  auto.
Qed.

Lemma propagate_all_covariance_ok (ss : list (Sample S)) (st : IntegrationBase S) :
  covariance_ok le st -> covariance_ok le (propagate_all ss st).
Proof.
  revert st; induction ss as [|[[d a] g] ss IH]; intros st H; [exact H|].
  rewrite propagate_all_cons. apply IH.
  unfold propagate_sample; cbn [fst snd]. now apply propagate_covariance_ok.
Qed.

Lemma new_covariance_ok (un : Uninit S) a0 g0 ba bg :
  covariance_ok le (IntegrationBase_new un a0 g0 ba bg).
Proof.
  unfold covariance_ok.
  change (covariance (IntegrationBase_new un a0 g0 ba bg)) with (m_zero (S := S) 15 15).
  repeat split.
  - apply symmetric_m_zero.
  - apply psd_m_zero.
  - apply noise_symmetric.
  - apply noise_psd.
Qed.

Lemma covariance_with_buffers (ss : list (Sample S)) (st : IntegrationBase S) :
  covariance (with_buffers ss st) = covariance st.
Proof. by_running st. Qed.

End Exact.

(** ** Motion under exact arithmetic *)

Section ExactMotion.
Variable S : Scalar.
Variable le : S -> S -> Prop.
Hypothesis EA : ExactArith S le.
Implicit Types (st : IntegrationBase S) (q : Quaterniond S) (w : Vector3d S).

Add Ring scalar_ring' : (ea_ring EA).

Lemma le_0_1 : le 0 1.
Proof. replace (1 : S) with ((1 : S) * 1) by ring. apply (ea_le_sq EA). Qed.

Lemma ltb_0_1 : sltb (0 : S) 1 = true.
Proof.
  apply (ea_ltb EA). split; [apply le_0_1|].
  intros H. apply (ea_one_neq_zero EA). now symmetry.
Qed.

Lemma two_neq_zero : (2 : S) <> 0.
Proof.
  intros H. apply (ea_one_neq_zero EA).
  rewrite <- (ea_half EA), H. ring.
Qed.

Lemma half_double (x : S) : 0.5 * (x + x) = x.
Proof.
  replace (x + x) with (2 * x) by (rewrite (ea_two EA); ring).
  replace (0.5 * (2 * x)) with (0.5 * 2 * x) by ring.
  rewrite (ea_half EA). ring.
Qed.

(** Division is multiplication by the inverse [1 / y]. *)
Lemma div_inverse (x y : S) : y <> 0 -> x / y = x * (1 / y).
Proof.
  intros Hy.
  pose proof (@ea_div _ _ EA x y Hy) as Hx. pose proof (@ea_div _ _ EA 1 y Hy) as Hi.
  replace (x / y) with (x / y * 1) by ring.
  rewrite <- Hi at 1.
  replace (x / y * (1 / y * y)) with (x / y * y * (1 / y)) by ring.
  now rewrite Hx.
Qed.

Lemma div_zero (y : S) : y <> 0 -> 0 / y = 0.
Proof. intros Hy. rewrite div_inverse by assumption. ring. Qed.

Lemma div_one (x : S) : x / 1 = x.
Proof.
  pose proof (@ea_div _ _ EA x 1 (ea_one_neq_zero EA)) as H.
  transitivity (x / 1 * 1); [ring | exact H].
Qed.

Lemma div_two (x : S) : x / 2 = 0.5 * x.
Proof.
  rewrite (div_inverse x two_neq_zero).
  pose proof (@ea_div _ _ EA 1 2 two_neq_zero) as Hi.
  transitivity (x * (1 / 2 * 2 * 0.5)).
  - replace (1 / 2 * 2 * 0.5 : S) with (1 / 2 * (0.5 * 2) : S) by ring.
    rewrite (ea_half EA). ring.
  - rewrite Hi. ring.
Qed.

Lemma sqrt_one : ssqrt (1 : S) = 1.
Proof.
  destruct (@ea_sqrt _ _ EA 1 le_0_1) as [Hs Hss].
  set (s := ssqrt (1 : S)) in *.
  assert (Hn : s + 1 <> 0).
  { intros H. apply (ea_one_neq_zero EA).
    apply (ea_le_antisym EA); [apply le_0_1|].
    replace (- (1 : S)) with s; [exact Hs|].
    replace s with (s + 1 - 1) by ring. rewrite H. ring. }
  pose proof (@ea_div _ _ EA 1 (s + 1) Hn) as Hi.
  transitivity (1 / (s + 1) * (s * s - 1) + 1).
  - replace (1 / (s + 1) * (s * s - 1)) with (1 / (s + 1) * (s + 1) * (s - 1)) by ring.
    rewrite Hi. ring.
  - rewrite Hss. ring.
Qed.

(** *** Components *)

Lemma v3_eq (a b c a' b' c' : S) :
  a = a' -> b = b' -> c = c' -> mkV3 a b c = mkV3 a' b' c'.
Proof. now intros -> -> ->. Qed.

Lemma quat_eq (a b c d a' b' c' d' : S) :
  a = a' -> b = b' -> c = c' -> d = d' -> mkQuat a b c d = mkQuat a' b' c' d'.
Proof. now intros -> -> -> ->. Qed.

Lemma q_normalize_identity : q_normalize (q_identity (S := S)) = q_identity.
Proof.
  unfold q_normalize, q_identity, q_squaredNorm; cbn [qw qx qy qz].
  replace ((0 : S) * 0 + 0 * 0 + 0 * 0 + 1 * 1) with (1 : S) by ring.
  rewrite ltb_0_1, sqrt_one.
  rewrite div_one, div_zero by exact (ea_one_neq_zero EA). reflexivity.
Qed.

Lemma small_angle_zero (d : S) : small_angle v3_zero d = q_identity.
Proof.
  unfold small_angle, v3_zero, q_identity; cbn [vx vy vz].
  replace ((0 : S) * d) with (0 : S) by ring.
  now rewrite div_zero by exact two_neq_zero.
Qed.

Lemma qmul_identity : qmul (q_identity (S := S)) q_identity = q_identity.
Proof. unfold qmul, q_identity; cbn [qw qx qy qz]. apply quat_eq; ring. Qed.

Lemma qrot_zero q : qrot q v3_zero = v3_zero.
Proof.
  unfold qrot, cross, vadd, svmul, q_vec, v3_zero; cbn [vx vy vz].
  apply v3_eq; ring.
Qed.

Lemma vsub_self w : w -^ w = v3_zero.
Proof. unfold vsub, v3_zero. apply v3_eq; ring. Qed.

Lemma mean_rate_bias st :
  gyr_0 st = linearized_bg st -> mean_rate st (linearized_bg st) = v3_zero.
Proof.
  intros H. unfold mean_rate. rewrite H.
  unfold vsub, svmul, vadd, v3_zero; cbn [vx vy vz].
  apply v3_eq; rewrite half_double; ring.
Qed.

(** *** A step of an instance at rest *)

Lemma propagate_at_rest st d :
  at_rest st ->
  at_rest (exec (propagate d (linearized_ba st) (linearized_bg st)) st).
Proof.
  intros (Hp & Hv & Hq & Ha & Hg).
  assert (Eq : updated_q st d (linearized_bg st) = q_identity).
  { unfold updated_q. rewrite Hq, mean_rate_bias, small_angle_zero by assumption.
    apply qmul_identity. }
  assert (Ea : a_mean st d (linearized_ba st) (linearized_bg st) = v3_zero).
  { unfold a_mean. rewrite Eq, Hq, Ha, vsub_self, qrot_zero.
    unfold svmul, vadd, v3_zero; cbn [vx vy vz]. apply v3_eq; ring. }
  unfold at_rest.
  rewrite propagate_delta_p, propagate_delta_v, propagate_delta_q, Ea, Eq, Hp, Hv.
  split; [|split; [|split; [|split]]].
  - unfold vadd, vsmul, svmul, v3_zero; cbn [vx vy vz]. apply v3_eq; ring.
  - unfold vadd, vsmul, v3_zero; cbn [vx vy vz]. apply v3_eq; ring.
  - apply q_normalize_identity.
  - by_running st.
  - by_running st.
Qed.

Lemma propagate_all_at_rest ss st :
  Forall (steady (linearized_ba st) (linearized_bg st)) ss ->
  at_rest st -> at_rest (propagate_all ss st).
Proof.
  revert st; induction ss as [|[[d a] g] ss IH]; intros st Hs Hr; [exact Hr|].
  rewrite propagate_all_cons. inversion Hs as [|? ? [Ea Eg] Hs']; subst.
  cbn [fst snd] in *. subst a g. unfold propagate_sample; cbn [fst snd].
  destruct (propagate_frame st d (linearized_ba st) (linearized_bg st))
    as (_ & _ & Fa & Fg & _).
  apply IH.
  - now rewrite Fa, Fg.
  - now apply propagate_at_rest.
Qed.

(** *** The orientation keeps unit norm *)

Lemma q_squaredNorm_qmul q1 q2 :
  q_squaredNorm (qmul q1 q2) = q_squaredNorm q1 * q_squaredNorm q2.
Proof. unfold q_squaredNorm, qmul; cbn [qw qx qy qz]. ring. Qed.

Lemma q_normalize_unit q :
  sltb 0 (q_squaredNorm q) = true -> unit_quaternion (q_normalize q).
Proof.
  intros Hz. unfold unit_quaternion, q_normalize. rewrite Hz.
  apply (ea_ltb EA) in Hz. destruct Hz as [Hle Hne].
  destruct (@ea_sqrt _ _ EA _ Hle) as [_ Hss].
  set (z := q_squaredNorm q) in *. set (n := ssqrt z) in *.
  assert (Hn : n <> 0).
  { intros H. apply Hne. rewrite <- Hss, H. ring. }
  pose proof (@ea_div _ _ EA 1 n Hn) as Hi.
  unfold q_squaredNorm; cbn [qw qx qy qz].
  rewrite (div_inverse (qw q) Hn), (div_inverse (qx q) Hn),
    (div_inverse (qy q) Hn), (div_inverse (qz q) Hn).
  replace (qx q * (1 / n) * (qx q * (1 / n)) + qy q * (1 / n) * (qy q * (1 / n))
           + qz q * (1 / n) * (qz q * (1 / n)) + qw q * (1 / n) * (qw q * (1 / n)))
    with (q_squaredNorm q * ((1 / n) * (1 / n)))
    by (unfold q_squaredNorm; ring).
  fold z. rewrite <- Hss.
  replace (n * n * (1 / n * (1 / n))) with ((1 / n * n) * (1 / n * n)) by ring.
  rewrite Hi. ring.
Qed.

Lemma small_angle_positive w (d : S) :
  sltb 0 (q_squaredNorm (small_angle w d)) = true.
Proof.
  apply (ea_ltb EA).
  unfold small_angle, q_squaredNorm; cbn [qw qx qy qz].
  set (a := vx w * d / 2). set (b := vy w * d / 2). set (c := vz w * d / 2).
  assert (Hs : le 0 (a * a + b * b + c * c))
    by (repeat apply (ea_le_add EA); apply (ea_le_sq EA)).
  split.
  - replace (a * a + b * b + c * c + 1 * 1) with (a * a + b * b + c * c + 1) by ring.
    apply (ea_le_add EA); [exact Hs | apply le_0_1].
  - intros H. apply (ea_one_neq_zero EA).
    apply (ea_le_antisym EA); [apply le_0_1|].
    replace (- (1 : S)) with (a * a + b * b + c * c); [exact Hs|].
    replace (a * a + b * b + c * c)
      with (0 - 1 + (a * a + b * b + c * c + 1 * 1)) by ring.
    rewrite <- H. ring.
Qed.

Lemma propagate_unit st d a g :
  unit_quaternion (delta_q st) ->
  unit_quaternion (delta_q (exec (propagate d a g) st)).
Proof.
  intros Hu. rewrite propagate_delta_q. apply q_normalize_unit.
  unfold updated_q. rewrite q_squaredNorm_qmul, Hu.
  replace (1 * q_squaredNorm (small_angle (mean_rate st g) d))
    with (q_squaredNorm (small_angle (mean_rate st g) d)) by ring.
  apply small_angle_positive.
Qed.

Lemma unit_identity : unit_quaternion (q_identity (S := S)).
Proof. unfold unit_quaternion, q_squaredNorm, q_identity; cbn [qw qx qy qz]. ring. Qed.

Lemma propagate_all_unit (ss : list (Sample S)) st :
  unit_quaternion (delta_q st) -> unit_quaternion (delta_q (propagate_all ss st)).
Proof.
  revert st; induction ss as [|[[d a] g] ss IH]; intros st H; [exact H|].
  rewrite propagate_all_cons. apply IH.
  unfold propagate_sample; cbn [fst snd]. now apply propagate_unit.
Qed.

End ExactMotion.

(** ** The real numbers are an exact arithmetic *)

Lemma Q2R_zero : Q2R (0 # 1) = 0%R.
Proof. unfold Q2R; cbn; lra. Qed.

Lemma Q2R_one : Q2R (1 # 1) = 1%R.
Proof. unfold Q2R; cbn; lra. Qed.

Lemma Q2R_two : Q2R (2 # 1) = 2%R.
Proof. unfold Q2R; cbn; lra. Qed.

Lemma Q2R_half : Q2R (1 # 2) = (/ 2)%R.
Proof. unfold Q2R; cbn; lra. Qed.

Lemma RScalar_exact : ExactArith RScalar Rle.
Proof.
  constructor; cbn [T lit sadd ssub smul sdiv sneg ssqrt sltb RScalar];
    rewrite ?Q2R_zero, ?Q2R_one, ?Q2R_two, ?Q2R_half.
  - constructor; intros; ring.
  - lra.
  - lra.
  - lra.
  - intros x y Hy. field. exact Hy.
  - intros x. apply Rle_refl.
  - intros x H1 H2. lra.
  - intros x y H1 H2. lra.
  - intros x y H1 H2. now apply Rmult_le_pos.
  - intros x. nra.
  - intros x y. unfold Rltb. destruct (Rlt_dec x y); split; intros H;
      try discriminate; try reflexivity; lra.
  - intros x Hx. split; [apply sqrt_pos | now apply sqrt_sqrt].
Qed.

(** ** The shape of the step matrices *)

Section Shapes.
Variable S : Scalar.

Lemma shape_mk_matrix n m (f : nat -> nat -> S) : shape n m (mk_matrix n m f).
Proof.
  unfold shape, mk_matrix. split.
  - now rewrite length_map, length_seq.
  - apply Forall_forall. intros r Hr. apply in_map_iff in Hr.
    destruct Hr as (i & <- & _). now rewrite length_map, length_seq.
Qed.

Lemma shape_build_F d (q q' : Quaterniond S) Rw Ra0 Ra1 :
  shape 15 15 (build_F d q q' Rw Ra0 Ra1).
Proof. unfold build_F. cbv zeta. unfold set_block at 1. apply shape_mk_matrix. Qed.

Lemma shape_build_V d (q q' : Quaterniond S) Ra1 :
  shape 15 18 (build_V d q q' Ra1).
Proof. unfold build_V. cbv zeta. unfold set_block at 1. apply shape_mk_matrix. Qed.

End Shapes.

(** ** The stated properties *)

Section Stated.
Variable S : Scalar.
Variable deltaQ : Vector3d S -> Quaterniond S.
Implicit Types (st : IntegrationBase S) (ss : list (Sample S)).

(** C1. For every call [propagate(dt, acc_1, gyr_1)] the position and
    velocity increments advance by mid-point integration: the mean specific
    force is the average of the bias-corrected force at sample k multiplied
    by the [delta_q] of before the call and the bias-corrected force at
    sample k+1 multiplied by [result_delta_q], the product
    [delta_q * (1, w*dt/2)] before it is renormalised.  Both products are
    Eigen's quaternion-vector product, which does not normalise: the second
    is not a rotation, and the orientation the step stores, the normalised
    [result_delta_q], is not the one applied to the force.  Then [delta_p]
    becomes [delta_p + delta_v*dt + 0.5*a_mean*dt*dt] and [delta_v] becomes
    [delta_v + a_mean*dt]. *)
Theorem C1_midpoint_position_velocity st _dt _acc_1 _gyr_1 :
  let st' := exec (propagate _dt _acc_1 _gyr_1) st in
  let result_delta_q := updated_q st _dt _gyr_1 in
  let un_acc_0 := qrot (delta_q st) (acc_0 st -^ linearized_ba st) in
  let un_acc_1 := qrot result_delta_q (_acc_1 -^ linearized_ba st) in
  let a_mean := 0.5 *^ (un_acc_0 +^ un_acc_1) in
  delta_p st' = delta_p st +^ delta_v st ^* _dt +^ 0.5 *^ a_mean ^* _dt ^* _dt /\
  delta_v st' = delta_v st +^ a_mean ^* _dt /\
  delta_q st' = q_normalize result_delta_q.
Proof.
  cbv zeta. split; [|split].
  - apply propagate_delta_p.
  - apply propagate_delta_v.
  - apply propagate_delta_q.
Qed.

(** C3. On every propagation step the uncertainty is updated by the
    discrete Kalman prediction rule: [jacobian] becomes [F * jacobian] and
    [covariance] becomes [F * covariance * F^T + V * noise * V^T], with [F]
    the 15x15 transition matrix and [V] the 15x18 noise-input matrix built
    for that step; [noise] stays what it was. *)
Theorem C3_kalman_prediction st _dt _acc_1 _gyr_1 :
  let st' := exec (propagate _dt _acc_1 _gyr_1) st in
  let F := F_of_step st _dt _acc_1 _gyr_1 in
  let V := V_of_step st _dt _acc_1 _gyr_1 in
  jacobian st' = mmul 15 15 15 F (jacobian st) /\
  covariance st'
  = madd 15 15
      (mmul 15 15 15 (mmul 15 15 15 F (covariance st)) (mtranspose 15 15 F))
      (mmul 15 18 15 (mmul 15 18 18 V (noise st)) (mtranspose 15 18 V)) /\
  noise st' = noise st /\
  shape 15 15 F /\ shape 15 18 V.
Proof.
  cbv zeta. split; [|split; [|split; [|split]]].
  - apply propagate_jacobian.
  - rewrite propagate_covariance. reflexivity.
  - apply (propagate_frame st _dt _acc_1 _gyr_1).
  - apply shape_build_F.
  - apply shape_build_V.
Qed.

(** C5. An instance built from an initial sample and a bias pair and fed
    any sequence of samples by [push_back]: [repropagate] with the biases
    the instance already has leaves [sum_dt], [delta_p], [delta_q],
    [delta_v], [jacobian] and [covariance] as the original sequential
    propagation left them; indeed it leaves the whole instance as it was. *)
Theorem C5_repropagate_same_biases un a0 g0 ba bg ss :
  let st := push_all ss (IntegrationBase_new un a0 g0 ba bg) in
  let st' := exec (repropagate (linearized_ba st) (linearized_bg st)) st in
  sum_dt st' = sum_dt st /\ delta_p st' = delta_p st /\
  delta_q st' = delta_q st /\ delta_v st' = delta_v st /\
  jacobian st' = jacobian st /\ covariance st' = covariance st /\
  st' = st.
Proof.
  cbv zeta.
  destruct (pushed_biases un a0 g0 ba bg ss) as (-> & -> & _).
  rewrite repropagate_replays. repeat split.
Qed.

(** C6. [evaluate] returns the 15 residuals and mutates nothing: the
    instance after the call is the instance before it, member for member
    ([sum_dt], the deltas, the biases, [jacobian], [covariance], [noise] and
    the buffers included), and a second call with the same arguments returns
    the same residuals. *)
Theorem C6_evaluate_mutates_nothing st Pi Qi Vi Bai Bgi Pj Qj Vj Baj Bgj :
  let call := evaluate deltaQ Pi Qi Vi Bai Bgi Pj Qj Vj Baj Bgj in
  exec call st = st /\
  length (eval call st) = 15%nat /\
  eval call (exec call st) = eval call st.
Proof.
  cbv zeta.
  assert (E : exec (evaluate deltaQ Pi Qi Vi Bai Bgi Pj Qj Vj Baj Bgj) st = st)
    by reflexivity.
  split; [exact E|split].
  - reflexivity.
  - now rewrite E.
Qed.

(** C7. [repropagate] on an instance whose sample buffer is empty replays
    nothing and only resets: [sum_dt = 0], [delta_p = 0],
    [delta_q = identity], [delta_v = 0], [jacobian = identity],
    [covariance = 0], and [linearized_ba], [linearized_bg] are the given
    biases. *)
Theorem C7_repropagate_empty_buffer st ba bg :
  dt_buf st = [] ->
  let st' := exec (repropagate ba bg) st in
  sum_dt st' = 0 /\ delta_p st' = v3_zero /\ delta_q st' = q_identity /\
  delta_v st' = v3_zero /\ jacobian st' = m_identity 15 /\
  covariance st' = m_zero 15 15 /\
  linearized_ba st' = ba /\ linearized_bg st' = bg /\
  st' = reset_state ba bg st.
Proof.
  intros H. cbv zeta. rewrite repropagate_unfold, H. cbn [length seq].
  change (exec (replay []) (reset_state ba bg st)) with (reset_state ba bg st).
  destruct st. run_methods. repeat split.
Qed.

(** C9 (amended). A non-positive [dt] is not rejected: [push_back] and
    [propagate] have no failure path and treat every [dt] alike, whatever
    its sign.  [push_back] appends the sample to the three buffers and
    propagates it; [propagate] adds [dt] to [sum_dt] and integrates by the
    mid-point formulas. *)
Theorem C9_every_dt_is_integrated st _dt acc gyr :
  let st' := exec (push_back _dt acc gyr) st in
  dt_buf st' = dt_buf st ++ [_dt] /\
  acc_buf st' = acc_buf st ++ [acc] /\
  gyr_buf st' = gyr_buf st ++ [gyr] /\
  sum_dt st' = sum_dt st + _dt /\
  delta_v st' = delta_v st +^ a_mean st _dt acc gyr ^* _dt /\
  st' = exec (propagate _dt acc gyr) (with_buffers [(_dt, acc, gyr)] st) /\
  sum_dt (exec (propagate _dt acc gyr) st) = sum_dt st + _dt.
Proof.
  cbv zeta. destruct st. run_methods. cbn [map fst snd]. repeat split.
Qed.

(** C10. Every [repropagate] restores the left-endpoint sample [acc_0],
    [gyr_0] to the first sample of the instance, the constructor arguments
    kept in [linearized_acc], [linearized_gyr]: however many samples were
    pushed since construction, the replay starts from an instance whose
    [acc_0], [gyr_0] are the constructor's, and so ends where construction
    with the new biases and the same feeding ends. *)
Theorem C10_repropagate_restores_first_sample un a0 g0 ba bg ba' bg' ss :
  let st := push_all ss (IntegrationBase_new un a0 g0 ba bg) in
  linearized_acc st = a0 /\ linearized_gyr st = g0 /\
  acc_0 (reset_state ba' bg' st) = a0 /\
  gyr_0 (reset_state ba' bg' st) = g0 /\
  exec (repropagate ba' bg') st = propagate_all ss (reset_state ba' bg' st) /\
  exec (repropagate ba' bg') st
  = push_all ss (IntegrationBase_new un a0 g0 ba' bg').
Proof.
  cbv zeta.
  destruct (pushed_biases un a0 g0 ba bg ss) as (_ & _ & Ha & Hg).
  destruct (pushed_buffers un a0 g0 ba bg ss) as (Hd & Hab & Hgb).
  set (st := push_all ss (IntegrationBase_new un a0 g0 ba bg)) in *.
  assert (Ra : acc_0 (reset_state ba' bg' st) = linearized_acc st)
    by (by_running st).
  assert (Rg : gyr_0 (reset_state ba' bg' st) = linearized_gyr st)
    by (by_running st).
  split; [exact Ha|]. split; [exact Hg|].
  split; [now rewrite Ra|]. split; [now rewrite Rg|]. split.
  - rewrite repropagate_unfold, Hd, length_map.
    change 0%nat with (length (@nil (Sample S))).
    apply replay_buffers; cbn [app].
    + rewrite <- Hd. by_running st.
    + rewrite <- Hab. by_running st.
    + rewrite <- Hgb. by_running st.
  - apply repropagate_replays.
Qed.

(** X1. Every [propagate] carries the biases forward unchanged, shifts the new
    sample into [acc_0], [gyr_0], adds [dt] to [sum_dt], and leaves the
    buffers and the first sample alone. *)
Theorem propagate_side_effects st _dt _acc_1 _gyr_1 :
  let st' := exec (propagate _dt _acc_1 _gyr_1) st in
  linearized_ba st' = linearized_ba st /\ linearized_bg st' = linearized_bg st /\
  acc_0 st' = _acc_1 /\ gyr_0 st' = _gyr_1 /\
  sum_dt st' = sum_dt st + _dt /\
  dt_buf st' = dt_buf st /\ acc_buf st' = acc_buf st /\ gyr_buf st' = gyr_buf st /\
  linearized_acc st' = linearized_acc st /\ linearized_gyr st' = linearized_gyr st.
Proof. cbv zeta. destruct st. run_methods. repeat split. Qed.

(** X2. The buffers hold the pushed samples in order, and [repropagate] leaves
    them as they are. *)
Theorem buffers_append_only un a0 g0 ba bg ba' bg' ss :
  let st := push_all ss (IntegrationBase_new un a0 g0 ba bg) in
  let st' := exec (repropagate ba' bg') st in
  dt_buf st = map (fun s => fst (fst s)) ss /\
  acc_buf st = map (fun s => snd (fst s)) ss /\
  gyr_buf st = map (fun s => snd s) ss /\
  dt_buf st' = dt_buf st /\ acc_buf st' = acc_buf st /\ gyr_buf st' = gyr_buf st.
Proof.
  cbv zeta. rewrite repropagate_replays.
  destruct (pushed_buffers un a0 g0 ba bg ss) as (-> & -> & ->).
  destruct (pushed_buffers un a0 g0 ba' bg' ss) as (-> & -> & ->).
  repeat split.
Qed.

(** The last six residuals of [evaluate] are the bias differences
    [Baj - Bai] and [Bgj - Bgi]. *)
Theorem evaluate_bias_residuals st Pi Qi Vi Bai Bgi Pj Qj Vj Baj Bgj :
  skipn 9 (eval (evaluate deltaQ Pi Qi Vi Bai Bgi Pj Qj Vj Baj Bgj) st)
  = v3_coeffs (Baj -^ Bai) ++ v3_coeffs (Bgj -^ Bgi).
Proof.
  unfold eval, evaluate, bind, read, ret; cbn [fst snd].
  unfold v3_coeffs at 1 2 3; cbn [app skipn]. reflexivity.
Qed.

End Stated.

Section StatedExact.
Variable S : Scalar.
Implicit Types (st : IntegrationBase S) (ss : list (Sample S)).

(** C2 (amended). For every call [propagate(dt, acc_1, gyr_1)] the new
    orientation is obtained from the mean bias-corrected angular rate
    [w = 0.5*(gyr_0 + gyr_1) - linearized_bg] by forming the unnormalised
    small-angle quaternion [(1, w.x*dt/2, w.y*dt/2, w.z*dt/2)],
    multiplying the current [delta_q] by it on the right
    ([delta_q * dq], the increment being the right factor), and
    renormalising.  In exact arithmetic the components of the small-angle
    quaternion are [0.5*w*dt], and a unit [delta_q] is taken to a unit
    [delta_q]. *)
Theorem C2_orientation_update st _dt _acc_1 _gyr_1 :
  let st' := exec (propagate _dt _acc_1 _gyr_1) st in
  let w := 0.5 *^ (gyr_0 st +^ _gyr_1) -^ linearized_bg st in
  let dq := mkQuat 1 (vx w * _dt / 2) (vy w * _dt / 2) (vz w * _dt / 2) in
  delta_q st' = q_normalize (qmul (delta_q st) dq) /\
  (forall le : S -> S -> Prop, ExactArith S le ->
     dq = mkQuat 1 (0.5 * (vx w * _dt)) (0.5 * (vy w * _dt)) (0.5 * (vz w * _dt)) /\
     (unit_quaternion (delta_q st) -> unit_quaternion (delta_q st'))).
Proof.
  cbv zeta. split.
  - apply propagate_delta_q.
  - intros le EA. split.
    + now rewrite !(div_two EA).
    + apply (propagate_unit EA).
Qed.

(** C4. The covariance is symmetric and positive-semidefinite after every
    propagation step, for every sequence of samples, starting from the zero
    matrix of construction and with the constant diagonal noise matrix of
    squared noise densities.  The arithmetic is exact: in binary64 the
    property holds up to rounding only. *)
Theorem C4_covariance_symmetric_psd (le : S -> S -> Prop) (EA : ExactArith S le)
  un a0 g0 ba bg ss :
  let st := push_all ss (IntegrationBase_new un a0 g0 ba bg) in
  symmetric 15 (covariance st) /\ psd le 15 (covariance st).
Proof.
  cbv zeta. rewrite push_all_propagate_all, covariance_with_buffers.
  destruct (propagate_all_covariance_ok EA ss (new_covariance_ok EA un a0 g0 ba bg))
    as (Hs & Hp & _).
  split; assumption.
Qed.

(** C8 (amended). For every number of steps, if every sample, the initial
    one included, has angular rate equal to the gyroscope bias and specific
    force equal to the accelerometer bias (bias-corrected rate and force
    zero: the propagator does not subtract gravity), then after those steps
    [delta_p] and [delta_v] are the zero vector and [delta_q] is the
    identity quaternion.  The arithmetic is exact. *)
Theorem C8_zero_motion (le : S -> S -> Prop) (EA : ExactArith S le) un ba bg ss :
  Forall (steady ba bg) ss ->
  let st := push_all ss (IntegrationBase_new un ba bg ba bg) in
  delta_p st = v3_zero /\ delta_v st = v3_zero /\ delta_q st = q_identity.
Proof.
  intros Hs. cbv zeta. rewrite push_all_propagate_all.
  set (st0 := IntegrationBase_new un ba bg ba bg).
  assert (R0 : at_rest st0) by (repeat split).
  assert (Hs0 : Forall (steady (linearized_ba st0) (linearized_bg st0)) ss)
    by exact Hs.
  destruct (propagate_all_at_rest EA Hs0 R0) as (Hp & Hv & Hq & _).
  split; [|split].
  - rewrite <- Hp. by_running (propagate_all ss st0).
  - rewrite <- Hv. by_running (propagate_all ss st0).
  - rewrite <- Hq. by_running (propagate_all ss st0).
Qed.

(** X3. In exact arithmetic [delta_q] is a unit quaternion after every
    sequence of samples. *)
Theorem orientation_unit_norm (le : S -> S -> Prop) (EA : ExactArith S le)
  un a0 g0 ba bg ss :
  unit_quaternion (delta_q (push_all ss (IntegrationBase_new un a0 g0 ba bg))).
Proof.
  rewrite push_all_propagate_all.
  assert (H : unit_quaternion
                (delta_q (propagate_all ss (IntegrationBase_new un a0 g0 ba bg)))).
  { apply (propagate_all_unit EA). apply (unit_identity EA). }
  revert H. destruct (propagate_all ss (IntegrationBase_new un a0 g0 ba bg)).
  run_methods. exact (fun H => H).
Qed.

(** X4. In exact arithmetic the noise matrix is diagonal, its entries the
    squared noise densities, and no sample changes it. *)
Theorem noise_constant_diagonal (le : S -> S -> Prop) (EA : ExactArith S le)
  un a0 g0 ba bg ss i j :
  (i < 18)%nat -> (j < 18)%nat ->
  mget (noise (push_all ss (IntegrationBase_new un a0 g0 ba bg))) i j
  = if Nat.eqb i j then density S i * density S i else 0.
Proof.
  intros Hi Hj. rewrite push_all_propagate_all.
  destruct (propagate_all_frame ss (IntegrationBase_new un a0 g0 ba bg))
    as (_ & _ & _ & _ & Hn & _).
  rewrite <- (noise_diagonal EA un a0 g0 ba bg Hi Hj), <- Hn.
  destruct (propagate_all ss (IntegrationBase_new un a0 g0 ba bg)).
  run_methods. reflexivity.
Qed.

End StatedExact.

(** ** How the member functions compose *)

Section Composition.
Variable S : Scalar.
Variable deltaQ : Vector3d S -> Quaterniond S.
Implicit Types (st : IntegrationBase S) (ss : list (Sample S)).

Lemma push_all_snoc ss s st :
  push_all (ss ++ [s]) st = push_sample (push_all ss st) s.
Proof. unfold push_all. rewrite fold_left_app. reflexivity. Qed.

Lemma push_sample_eq st d a g :
  exec (push_back d a g) st = push_sample st (d, a, g).
Proof. unfold push_sample; cbn [fst snd]. reflexivity. Qed.

Lemma evaluate_exec st Pi Qi Vi Bai Bgi Pj Qj Vj Baj Bgj :
  exec (evaluate deltaQ Pi Qi Vi Bai Bgi Pj Qj Vj Baj Bgj) st = st.
Proof. unfold exec, evaluate, bind, read, ret; cbn [fst snd]. reflexivity. Qed.

Lemma reachable_canonical un a0 g0 st :
  reachable deltaQ un a0 g0 st ->
  exists ss ba bg, st = push_all ss (IntegrationBase_new un a0 g0 ba bg).
Proof.
  induction 1 as [ba bg | st d a g _ (ss & ba & bg & ->)
                  | st ba' bg' _ (ss & ba & bg & ->)
                  | st Pi Qi Vi Bai Bgi Pj Qj Vj Baj Bgj _ IH].
  - exists [], ba, bg. reflexivity.
  - exists (ss ++ [(d, a, g)]), ba, bg. rewrite push_all_snoc.
    unfold push_sample; cbn [fst snd]. reflexivity.
  - exists ss, ba', bg'. apply repropagate_replays.
  - rewrite evaluate_exec. exact IH.
Qed.

(** X5. Every instance the interface builds (construction, then any calls
    of [push_back], [repropagate] and [evaluate]) is the instance that
    construction with its current biases followed by [push_back] of its
    buffered samples gives.  Its three buffers have one length, so the loop
    of [repropagate] never indexes beyond [acc_buf] or [gyr_buf], and
    [linearized_acc], [linearized_gyr] are still the first sample. *)
Theorem reachable_instances un a0 g0 st :
  reachable deltaQ un a0 g0 st ->
  (exists ss,
     st = push_all ss (IntegrationBase_new un a0 g0 (linearized_ba st)
                         (linearized_bg st)) /\
     dt_buf st = map (fun s => fst (fst s)) ss /\
     acc_buf st = map (fun s => snd (fst s)) ss /\
     gyr_buf st = map (fun s => snd s) ss) /\
  length (acc_buf st) = length (dt_buf st) /\
  length (gyr_buf st) = length (dt_buf st) /\
  linearized_acc st = a0 /\ linearized_gyr st = g0.
Proof.
  intros H. destruct (reachable_canonical H) as (ss & ba & bg & ->).
  destruct (pushed_biases un a0 g0 ba bg ss) as (Eba & Ebg & Ea & Eg).
  destruct (pushed_buffers un a0 g0 ba bg ss) as (Hd & Ha & Hg).
  split; [|split; [|split; [|split]]].
  - exists ss. rewrite Eba, Ebg. auto.
  - now rewrite Ha, Hd, !length_map.
  - now rewrite Hg, Hd, !length_map.
  - exact Ea.
  - exact Eg.
Qed.

(** X6. On an instance the interface builds, a [repropagate] makes an
    earlier [repropagate] void, and [repropagate] commutes with
    [push_back]: re-propagating after a push gives what pushing after the
    re-propagation gives. *)
Theorem repropagate_composition un a0 g0 st b1 b1' b2 b2' d a g :
  reachable deltaQ un a0 g0 st ->
  exec (repropagate b2 b2') (exec (repropagate b1 b1') st)
  = exec (repropagate b2 b2') st /\
  exec (repropagate b2 b2') (exec (push_back d a g) st)
  = exec (push_back d a g) (exec (repropagate b2 b2') st).
Proof.
  intros H. destruct (reachable_canonical H) as (ss & ba & bg & ->). split.
  - now rewrite !repropagate_replays.
  - rewrite !(push_sample_eq _ d a g).
    rewrite <- push_all_snoc, !repropagate_replays. apply push_all_snoc.
Qed.

Lemma last_nonempty (A : Type) (y d d' : A) (l : list A) :
  last (y :: l) d = last (y :: l) d'.
Proof.
  revert y; induction l as [|z l IH]; intros y; [reflexivity|].
  change (last (z :: l) d = last (z :: l) d'). apply IH.
Qed.

Lemma last_cons (A : Type) (x d : A) (l : list A) : last (x :: l) d = last l x.
Proof. destruct l as [|y l]; [reflexivity|]. apply (last_nonempty y d x l). Qed.

Lemma propagate_all_progress ss st :
  let st' := propagate_all ss st in
  sum_dt st' = add_dts ss (sum_dt st) /\
  acc_0 st' = last (map (fun s => snd (fst s)) ss) (acc_0 st) /\
  gyr_0 st' = last (map (fun s => snd s) ss) (gyr_0 st).
Proof.
  cbv zeta. revert st; induction ss as [|[[d a] g] ss IH]; intros st.
  - repeat split.
  - rewrite propagate_all_cons. destruct (IH (propagate_sample st (d, a, g)))
      as (Ht & Ha & Hg).
    rewrite Ht, Ha, Hg. cbn [map fst snd]. rewrite !last_cons.
    unfold add_dts; cbn [fold_left fst snd]. unfold propagate_sample; cbn [fst snd].
    destruct st. run_methods. repeat split.
Qed.

(** X7. After construction and any pushes, [sum_dt] is the sum of the
    pushed [dt] in order, from 0, and the left-endpoint sample [acc_0],
    [gyr_0] is the last pushed sample, or the constructor's when nothing was
    pushed. *)
Theorem pushed_progress un a0 g0 ba bg ss :
  let st := push_all ss (IntegrationBase_new un a0 g0 ba bg) in
  sum_dt st = add_dts ss 0 /\
  acc_0 st = last (map (fun s => snd (fst s)) ss) a0 /\
  gyr_0 st = last (map (fun s => snd s) ss) g0.
Proof.
  cbv zeta. rewrite push_all_propagate_all.
  destruct (propagate_all_progress ss (IntegrationBase_new un a0 g0 ba bg))
    as (Ht & Ha & Hg).
  revert Ht Ha Hg.
  destruct (propagate_all ss (IntegrationBase_new un a0 g0 ba bg)).
  run_methods. cbv [IntegrationBase_new]. run_methods. auto.
Qed.

Lemma propagate_same_rotation st st' d a a' g :
  same_rotation st st' ->
  same_rotation (exec (propagate d a g) st) (exec (propagate d a' g) st').
Proof.
  intros (Hq & Hg & Hb). unfold same_rotation.
  rewrite !propagate_delta_q. unfold updated_q, mean_rate.
  rewrite Hq, Hg, Hb. split; [reflexivity|].
  destruct st, st'. run_methods. cbn in Hb. subst. auto.
Qed.

Lemma propagate_all_same_rotation ss ss' st st' :
  map (fun s => fst (fst s)) ss = map (fun s => fst (fst s)) ss' ->
  map (fun s => snd s) ss = map (fun s => snd s) ss' ->
  same_rotation st st' ->
  same_rotation (propagate_all ss st) (propagate_all ss' st').
Proof.
  revert ss' st st'; induction ss as [|[[d a] g] ss IH];
    intros [|[[d' a'] g'] ss'] st st' Hd Hg H; try discriminate.
  - exact H.
  - cbn [map fst snd] in Hd, Hg. injection Hd as -> Hd. injection Hg as -> Hg.
    rewrite !propagate_all_cons. apply IH; [assumption|assumption|].
    unfold propagate_sample; cbn [fst snd]. now apply propagate_same_rotation.
Qed.

(** X8. The orientation never depends on the accelerometer: two
    instances with the same gyroscope bias and first gyroscope sample, fed
    samples with the same [dt] and angular rates, have the same [delta_q],
    whatever the specific forces and accelerometer biases. *)
Theorem orientation_ignores_accelerometer un un' a0 a0' g0 ba ba' bg ss ss' :
  map (fun s => fst (fst s)) ss = map (fun s => fst (fst s)) ss' ->
  map (fun s => snd s) ss = map (fun s => snd s) ss' ->
  delta_q (push_all ss (IntegrationBase_new un a0 g0 ba bg))
  = delta_q (push_all ss' (IntegrationBase_new un' a0' g0 ba' bg)).
Proof.
  intros Hd Hg. rewrite !push_all_propagate_all.
  assert (H0 : same_rotation (IntegrationBase_new un a0 g0 ba bg)
                 (IntegrationBase_new un' a0' g0 ba' bg)) by (repeat split).
  destruct (propagate_all_same_rotation _ _ Hd Hg H0) as (Hq & _).
  revert Hq.
  destruct (propagate_all ss (IntegrationBase_new un a0 g0 ba bg)),
    (propagate_all ss' (IntegrationBase_new un' a0' g0 ba' bg)).
  run_methods. auto.
Qed.

End Composition.

(** ** The residual under exact arithmetic *)

Section ExactResidual.
Variable S : Scalar.
Variable deltaQ : Vector3d S -> Quaterniond S.
Variable le : S -> S -> Prop.
Hypothesis EA : ExactArith S le.
Implicit Types (st : IntegrationBase S) (q : Quaterniond S) (v w : Vector3d S).

Add Ring scalar_ring'' : (ea_ring EA).

Ltac by_components :=
  unfold qrot, cross, vadd, vsub, svmul, vsmul, mvmul3, q_vec, v3_zero,
    qmul, q_conjugate, q_identity, pure_quat;
  cbn [vx vy vz qw qx qy qz]; first [apply v3_eq | apply quat_eq]; ring.

Lemma mvmul3_zero (M : Matrix S) : mvmul3 M v3_zero = v3_zero.
Proof. by_components. Qed.

Lemma vadd_zero_r v : v +^ v3_zero = v.
Proof. destruct v. by_components. Qed.

Lemma svmul_zero (c : S) : c *^ v3_zero = v3_zero.
Proof. by_components. Qed.

Lemma qmul_identity_r q : qmul q q_identity = q.
Proof. destruct q. by_components. Qed.

Lemma qmul_identity_l q : qmul q_identity q = q.
Proof. destruct q. by_components. Qed.

Lemma qmul_assoc q1 q2 q3 : qmul (qmul q1 q2) q3 = qmul q1 (qmul q2 q3).
Proof. by_components. Qed.

Lemma q_conjugate_involutive q : q_conjugate (q_conjugate q) = q.
Proof. destruct q. by_components. Qed.

Lemma q_conjugate_unit q : unit_quaternion q -> unit_quaternion (q_conjugate q).
Proof.
  unfold unit_quaternion. intros <-.
  unfold q_squaredNorm, q_conjugate; cbn [qw qx qy qz]. ring.
Qed.

Lemma q_conjugate_qmul q : unit_quaternion q -> qmul (q_conjugate q) q = q_identity.
Proof.
  intros H. unfold qmul, q_conjugate, q_identity; cbn [qw qx qy qz].
  apply quat_eq; [|ring|ring|ring].
  rewrite <- H. unfold q_squaredNorm. ring.
Qed.

Lemma q_normalize_of_unit q : unit_quaternion q -> q_normalize q = q.
Proof.
  intros H. unfold unit_quaternion in H. unfold q_normalize; cbv zeta.
  rewrite !H, (ltb_0_1 EA), (sqrt_one EA).
  rewrite !(div_one EA). now destruct q.
Qed.

Lemma q_inverse_of_unit q : unit_quaternion q -> q_inverse q = q_conjugate q.
Proof.
  intros H. unfold unit_quaternion in H. unfold q_inverse; cbv zeta.
  rewrite !H, (ltb_0_1 EA).
  rewrite !(div_one EA). unfold q_conjugate; cbn [qw qx qy qz]. reflexivity.
Qed.

(** For a unit [q] the product [q * v] is the vector part of the sandwich
    [q (0, v) q^*]. *)
Lemma qrot_sandwich q v :
  unit_quaternion q ->
  pure_quat (qrot q v) = qmul (qmul q (pure_quat v)) (q_conjugate q).
Proof.
  intros H.
  assert (E : forall c : S, c = c + (q_squaredNorm q - 1) * c)
    by (intros c; rewrite H; ring).
  unfold qrot, cross, vadd, svmul, q_vec, qmul, q_conjugate, pure_quat;
    cbn [vx vy vz qw qx qy qz].
  apply quat_eq.
  - ring.
  - rewrite (E (vx v)) at 1. unfold q_squaredNorm. ring.
  - rewrite (E (vy v)) at 1. unfold q_squaredNorm. ring.
  - rewrite (E (vz v)) at 1. unfold q_squaredNorm. ring.
Qed.

Lemma pure_quat_inj v w : pure_quat v = pure_quat w -> v = w.
Proof.
  destruct v, w. unfold pure_quat; cbn [vx vy vz]. intros H.
  injection H as -> -> ->. reflexivity.
Qed.

(** A unit quaternion and its conjugate rotate back and forth. *)
Lemma qrot_conjugate_qrot q v :
  unit_quaternion q -> qrot (q_conjugate q) (qrot q v) = v.
Proof.
  intros H. apply pure_quat_inj.
  rewrite (qrot_sandwich _ (q_conjugate_unit H)), (qrot_sandwich _ H).
  rewrite q_conjugate_involutive.
  rewrite <- !qmul_assoc, (q_conjugate_qmul H), qmul_identity_l.
  rewrite qmul_assoc, (q_conjugate_qmul H). apply qmul_identity_r.
Qed.

Lemma deltaQ_small_zero : deltaQ_small (v3_zero (S := S)) = q_identity.
Proof.
  unfold deltaQ_small, v3_zero, q_identity; cbn [vx vy vz].
  now rewrite (div_zero EA (two_neq_zero EA)).
Qed.

(** X9. In exact arithmetic the residual of [evaluate] does not change
    when both endpoint positions are moved by the same vector. *)
Theorem evaluate_translation_invariant st c Pi Qi Vi Bai Bgi Pj Qj Vj Baj Bgj :
  eval (evaluate deltaQ (Pi +^ c) Qi Vi Bai Bgi (Pj +^ c) Qj Vj Baj Bgj) st
  = eval (evaluate deltaQ Pi Qi Vi Bai Bgi Pj Qj Vj Baj Bgj) st.
Proof.
  unfold eval, evaluate, bind, read, ret; cbn [fst snd].
  assert (E : forall A V : Vector3d S,
             A +^ (Pj +^ c) -^ (Pi +^ c) -^ V = A +^ Pj -^ Pi -^ V).
  { intros A V. unfold vadd, vsub; cbn [vx vy vz]. apply v3_eq; ring. }
  now rewrite E.
Qed.

(** X10. In exact arithmetic the residual of [evaluate] is zero in all
    15 components when the endpoints agree with the integrated motion: the
    biases at both ends are the linearisation biases, [Qi] is a unit
    quaternion, and [Pj = Pi + Vi*t - 0.5*G*t*t + Qi*delta_p],
    [Vj = Vi - G*t + Qi*delta_v], [Qj = Qi*delta_q] with [t = sum_dt];
    [deltaQ] is assumed to take the zero vector to the identity. *)
Theorem evaluate_zero_residual st Pi Qi Vi :
  unit_quaternion Qi -> unit_quaternion (delta_q st) ->
  deltaQ v3_zero = q_identity ->
  let t := sum_dt st in
  let Pj := Pi +^ Vi ^* t -^ 0.5 *^ G S ^* t ^* t +^ qrot Qi (delta_p st) in
  let Vj := Vi -^ G S ^* t +^ qrot Qi (delta_v st) in
  let Qj := qmul Qi (delta_q st) in
  eval (evaluate deltaQ Pi Qi Vi (linearized_ba st) (linearized_bg st)
          Pj Qj Vj (linearized_ba st) (linearized_bg st)) st
  = repeat 0 15.
Proof.
  intros HQ Hq HdQ. cbv zeta.
  unfold eval, evaluate, bind, read, ret; cbn [fst snd].
  rewrite !(vsub_self EA), !mvmul3_zero, HdQ, qmul_identity_r, !vadd_zero_r.
  rewrite (q_inverse_of_unit HQ), (q_inverse_of_unit Hq).
  assert (Ep : forall r : Vector3d S,
             0.5 *^ G S ^* sum_dt st ^* sum_dt st
             +^ (Pi +^ Vi ^* sum_dt st -^ 0.5 *^ G S ^* sum_dt st ^* sum_dt st +^ r)
             -^ Pi -^ Vi ^* sum_dt st = r).
  { intros [rx ry rz]. unfold vadd, vsub, vsmul, svmul; cbn [vx vy vz].
    apply v3_eq; ring. }
  assert (Ev : forall r : Vector3d S,
             G S ^* sum_dt st +^ (Vi -^ G S ^* sum_dt st +^ r) -^ Vi = r).
  { intros [rx ry rz]. unfold vadd, vsub, vsmul; cbn [vx vy vz].
    apply v3_eq; ring. }
  rewrite Ep, Ev, !(qrot_conjugate_qrot _ HQ), !(vsub_self EA).
  rewrite <- (qmul_assoc (q_conjugate Qi)), (q_conjugate_qmul HQ), qmul_identity_l.
  rewrite (q_conjugate_qmul Hq).
  unfold q_vec, q_identity; cbn [qw qx qy qz].
  change (mkV3 (0 : S) 0 0) with (v3_zero (S := S)). rewrite svmul_zero.
  reflexivity.
Qed.

(** X11. In exact arithmetic a step of [dt = 0] on an instance with a
    unit [delta_q] integrates nothing: [delta_p], [delta_v], [delta_q] and
    [sum_dt] are left as they were, whatever the sample. *)
Theorem zero_dt_step st a g :
  unit_quaternion (delta_q st) ->
  let st' := exec (propagate 0 a g) st in
  delta_p st' = delta_p st /\ delta_v st' = delta_v st /\
  delta_q st' = delta_q st /\ sum_dt st' = sum_dt st.
Proof.
  intros Hq. cbv zeta.
  rewrite propagate_delta_p, propagate_delta_v, propagate_delta_q, propagate_sum_dt.
  split; [|split; [|split]].
  - destruct (delta_p st), (delta_v st), (a_mean st 0 a g).
    unfold vadd, vsmul, svmul; cbn [vx vy vz]. apply v3_eq; ring.
  - destruct (delta_v st), (a_mean st 0 a g).
    unfold vadd, vsmul; cbn [vx vy vz]. apply v3_eq; ring.
  - unfold updated_q.
    assert (E : small_angle (mean_rate st g) 0 = q_identity).
    { unfold small_angle, q_identity.
      apply quat_eq; [reflexivity| | |];
        (match goal with |- ?x * 0 / 2 = 0 => replace (x * 0) with (0 : S) by ring end;
         apply (div_zero EA), (two_neq_zero EA)). }
    rewrite E, qmul_identity_r. now apply q_normalize_of_unit.
  - ring.
Qed.

End ExactResidual.

(** ** The force at sample k+1 and the stored orientation *)

Section ExactMidpoint.
Variable S : Scalar.
Variable le : S -> S -> Prop.
Hypothesis EA : ExactArith S le.
Implicit Types (st : IntegrationBase S) (q : Quaterniond S) (v w : Vector3d S).

Add Ring scalar_ring_m : (ea_ring EA).

(** The product [q * v] of a quaternion of squared norm [z > 0] and a
    vector is not the rotation of [v] by the normalised [q]: it is [z] times
    that rotation, less [(z - 1) v]. *)
Lemma qrot_unnormalised q v :
  sltb 0 (q_squaredNorm q) = true ->
  qrot q v
  = (q_squaredNorm q *^ qrot (q_normalize q) v) -^ ((q_squaredNorm q - 1) *^ v).
Proof.
  intros Hz. unfold q_normalize; cbv zeta. rewrite Hz.
  apply (ea_ltb EA) in Hz. destruct Hz as [Hle Hne].
  destruct (@ea_sqrt _ _ EA _ Hle) as [_ Hss].
  set (z := q_squaredNorm q) in *. set (n := ssqrt z) in *.
  assert (Hn : n <> 0).
  { intros H. apply Hne. rewrite <- Hss, H. ring. }
  pose proof (@ea_div _ _ EA 1 n Hn) as Hi.
  rewrite (div_inverse EA (qw q) Hn), (div_inverse EA (qx q) Hn),
    (div_inverse EA (qy q) Hn), (div_inverse EA (qz q) Hn).
  set (i := 1 / n) in *.
  assert (Hzi : z * (i * i) = 1).
  { rewrite <- Hss. replace (n * n * (i * i)) with ((i * n) * (i * n)) by ring.
    rewrite Hi. ring. }
  clearbody z i. clear Hle Hne Hss Hn Hi n.
  unfold qrot, cross, vadd, vsub, svmul, q_vec; cbn [vx vy vz qw qx qy qz].
  apply v3_eq.
  - match goal with |- ?L = _ =>
      transitivity (L + (z * (i * i) - 1) * (L - vx v)); [rewrite Hzi; ring | ring]
    end.
  - match goal with |- ?L = _ =>
      transitivity (L + (z * (i * i) - 1) * (L - vy v)); [rewrite Hzi; ring | ring]
    end.
  - match goal with |- ?L = _ =>
      transitivity (L + (z * (i * i) - 1) * (L - vz v)); [rewrite Hzi; ring | ring]
    end.
Qed.

Lemma q_squaredNorm_small_angle w (d : S) :
  q_squaredNorm (small_angle w d)
  = 1 + (vx w * d / 2 * (vx w * d / 2) + vy w * d / 2 * (vy w * d / 2)
         + vz w * d / 2 * (vz w * d / 2)).
Proof. unfold q_squaredNorm, small_angle; cbn [qw qx qy qz]. ring. Qed.

(** X16. In exact arithmetic, what the step applies to the force at
    sample k+1 against the orientation it stores: with a unit [delta_q]
    before the step and [n2 = 1 + |w*dt/2|^2] the squared norm of
    [result_delta_q], the vector that [midPointIntegration] averages is
    [n2 * (delta_q' * f) - (n2 - 1) * f], where [delta_q'] is the stored,
    renormalised orientation and [f] the bias-corrected force at k+1;
    [delta_p] and [delta_v] advance with the mean force formed from it. *)
Theorem midpoint_force_scaling st _dt _acc_1 _gyr_1 :
  unit_quaternion (delta_q st) ->
  let st' := exec (propagate _dt _acc_1 _gyr_1) st in
  let w := mean_rate st _gyr_1 in
  let n2 := 1 + (vx w * _dt / 2 * (vx w * _dt / 2) + vy w * _dt / 2 * (vy w * _dt / 2)
                 + vz w * _dt / 2 * (vz w * _dt / 2)) in
  let f := _acc_1 -^ linearized_ba st in
  let un_acc_0 := qrot (delta_q st) (acc_0 st -^ linearized_ba st) in
  let un_acc_1 := (n2 *^ qrot (delta_q st') f) -^ ((n2 - 1) *^ f) in
  let a_mean := 0.5 *^ (un_acc_0 +^ un_acc_1) in
  q_squaredNorm (updated_q st _dt _gyr_1) = n2 /\
  qrot (updated_q st _dt _gyr_1) f = un_acc_1 /\
  delta_p st' = delta_p st +^ delta_v st ^* _dt +^ 0.5 *^ a_mean ^* _dt ^* _dt /\
  delta_v st' = delta_v st +^ a_mean ^* _dt.
Proof.
  intros Hu. cbv zeta.
  assert (Hn : q_squaredNorm (updated_q st _dt _gyr_1)
               = q_squaredNorm (small_angle (mean_rate st _gyr_1) _dt)).
  { unfold updated_q. rewrite (q_squaredNorm_qmul EA), Hu. ring. }
  assert (Hp : sltb 0 (q_squaredNorm (updated_q st _dt _gyr_1)) = true)
    by (rewrite Hn; apply (small_angle_positive EA)).
  pose proof (@qrot_unnormalised (updated_q st _dt _gyr_1)
                (_acc_1 -^ linearized_ba st) Hp) as Hr.
  rewrite <- propagate_delta_q with (_acc_1 := _acc_1) in Hr.
  rewrite Hn, q_squaredNorm_small_angle in Hr.
  split; [|split; [|split]].
  - now rewrite Hn, q_squaredNorm_small_angle.
  - exact Hr.
  - rewrite propagate_delta_p. unfold a_mean. now rewrite Hr.
  - rewrite propagate_delta_v. unfold a_mean. now rewrite Hr.
Qed.

End ExactMidpoint.

(** ** Constant specific force without rotation *)

Section ExactConstantForce.
Variable S : Scalar.
Variable le : S -> S -> Prop.
Hypothesis EA : ExactArith S le.
Implicit Types (st : IntegrationBase S) (ss : list (Sample S)) (v : Vector3d S).

Add Ring scalar_ring_c : (ea_ring EA).

Lemma qrot_identity v : qrot q_identity v = v.
Proof.
  destruct v. unfold qrot, cross, vadd, svmul, q_vec, q_identity;
    cbn [vx vy vz qw qx qy qz]. apply v3_eq; ring.
Qed.

Lemma propagate_coasting st d :
  coasting st ->
  coasting (exec (propagate d (acc_0 st) (linearized_bg st)) st).
Proof.
  intros (Hp & Hv & Hq & Hg).
  assert (Eq : updated_q st d (linearized_bg st) = q_identity).
  { unfold updated_q.
    rewrite Hq, (mean_rate_bias EA), (small_angle_zero EA) by assumption.
    apply (qmul_identity EA). }
  assert (Ea : a_mean st d (acc_0 st) (linearized_bg st)
               = acc_0 st -^ linearized_ba st).
  { unfold a_mean. rewrite Eq, Hq, !qrot_identity.
    destruct (acc_0 st -^ linearized_ba st).
    unfold svmul, vadd; cbn [vx vy vz].
    apply v3_eq; apply (half_double EA). }
  unfold coasting.
  rewrite propagate_delta_p, propagate_delta_v, propagate_delta_q,
    propagate_sum_dt, Ea, Eq, Hp, Hv.
  replace (acc_0 (exec (propagate d (acc_0 st) (linearized_bg st)) st))
    with (acc_0 st) by (by_running st).
  replace (gyr_0 (exec (propagate d (acc_0 st) (linearized_bg st)) st))
    with (linearized_bg st) by (by_running st).
  replace (linearized_ba (exec (propagate d (acc_0 st) (linearized_bg st)) st))
    with (linearized_ba st) by (by_running st).
  replace (linearized_bg (exec (propagate d (acc_0 st) (linearized_bg st)) st))
    with (linearized_bg st) by (by_running st).
  destruct (acc_0 st -^ linearized_ba st) as [cx cy cz].
  split; [|split; [|split]].
  - unfold vadd, vsmul, svmul; cbn [vx vy vz].
    apply v3_eq;
      match goal with
      | |- 0.5 * ?c * ?t * ?t + ?c * ?t * ?dd + _ = _ =>
          rewrite <- (half_double EA (c * t * dd)); ring
      end.
  - unfold vadd, vsmul; cbn [vx vy vz]. apply v3_eq; ring.
  - apply (q_normalize_identity EA).
  - reflexivity.
Qed.

Lemma propagate_all_coasting ss st :
  Forall (steady (acc_0 st) (linearized_bg st)) ss ->
  coasting st ->
  let st' := propagate_all ss st in
  coasting st' /\ acc_0 st' = acc_0 st /\
  linearized_ba st' = linearized_ba st /\ linearized_bg st' = linearized_bg st.
Proof.
  cbv zeta. revert st; induction ss as [|[[d a] g] ss IH]; intros st Hs Hc; [auto|].
  rewrite propagate_all_cons. inversion Hs as [|? ? [Ea Eg] Hs']; subst.
  cbn [fst snd] in *. subst a g. unfold propagate_sample; cbn [fst snd].
  set (st1 := exec (propagate d (acc_0 st) (linearized_bg st)) st).
  assert (E0 : acc_0 st1 = acc_0 st) by (by_running st).
  assert (E1 : linearized_ba st1 = linearized_ba st) by (by_running st).
  assert (E2 : linearized_bg st1 = linearized_bg st) by (by_running st).
  destruct (IH st1) as (Hc' & -> & -> & ->).
  - now rewrite E0, E2.
  - now apply propagate_coasting.
  - auto.
Qed.

(** X14. In exact arithmetic a constant specific force without rotation
    is integrated exactly: if every sample, the initial one included, has the
    same specific force [a] and angular rate equal to the gyroscope bias,
    then [delta_v = (a - ba) * sum_dt],
    [delta_p = 0.5 * (a - ba) * sum_dt * sum_dt] and [delta_q] is the
    identity.  A sensor at rest that measures gravity gets [delta_v = G*t]:
    the propagator does not subtract gravity. *)
Theorem constant_force_motion (un : Uninit S) a ba bg ss :
  Forall (steady a bg) ss ->
  let st := push_all ss (IntegrationBase_new un a bg ba bg) in
  delta_v st = (a -^ ba) ^* sum_dt st /\
  delta_p st = 0.5 *^ (a -^ ba) ^* sum_dt st ^* sum_dt st /\
  delta_q st = q_identity.
Proof.
  intros Hs. cbv zeta. rewrite push_all_propagate_all.
  set (st0 := IntegrationBase_new un a bg ba bg).
  assert (C0 : coasting st0).
  { unfold coasting, st0.
    change (delta_p (IntegrationBase_new un a bg ba bg)) with (v3_zero (S := S)).
    change (delta_v (IntegrationBase_new un a bg ba bg)) with (v3_zero (S := S)).
    change (sum_dt (IntegrationBase_new un a bg ba bg)) with (0 : S).
    change (acc_0 (IntegrationBase_new un a bg ba bg)) with a.
    change (linearized_ba (IntegrationBase_new un a bg ba bg)) with ba.
    destruct (a -^ ba).
    split; [|split; [|split]]; try reflexivity;
      unfold vsmul, svmul, v3_zero; cbn [vx vy vz]; apply v3_eq; ring. }
  assert (Hs0 : Forall (steady (acc_0 st0) (linearized_bg st0)) ss) by exact Hs.
  destruct (propagate_all_coasting Hs0 C0) as ((Hp & Hv & Hq & _) & E0 & E1 & _).
  rewrite E0, E1 in Hp, Hv.
  revert Hp Hv Hq. destruct (propagate_all ss st0).
  run_methods. auto.
Qed.

End ExactConstantForce.

(** ** The structure of the jacobian and of the covariance *)

Ltac step_entries :=
  lazy [mget nth build_F build_V set_block block mk_matrix map seq m_zero
        m_identity msmul smmul Nat.leb Nat.ltb Nat.eqb Nat.add Nat.sub andb
        kron].

Section StepMatrices.
Variable S : Scalar.
Implicit Types (q : Quaterniond S) (R : Matrix S).

Lemma mget_m_identity n i j :
  (i < n)%nat -> (j < n)%nat -> mget (m_identity n : Matrix S) i j = kron i j.
Proof. intros; unfold m_identity; now rewrite mget_mk_matrix. Qed.

(** The rows of [F] for the two biases are rows of the identity. *)
Lemma build_F_bias_rows d q q' Rw Ra0 Ra1 i k :
  (9 <= i < 15)%nat -> (k < 15)%nat ->
  mget (build_F d q q' Rw Ra0 Ra1) i k = kron i k.
Proof.
  intros Hi Hk.
  do 9 (destruct i as [|i]; [exfalso; lia|]).
  do 6 (destruct i as [|i];
        [do 15 (destruct k as [|k]; [step_entries; reflexivity|]);
         exfalso; lia|]).
  exfalso; lia.
Qed.

(** The columns of [F] for the position are columns of the identity. *)
Lemma build_F_position_columns d q q' Rw Ra0 Ra1 i k :
  (i < 15)%nat -> (k < 3)%nat ->
  mget (build_F d q q' Rw Ra0 Ra1) i k = kron i k.
Proof.
  intros Hi Hk.
  do 15 (destruct i as [|i];
         [do 3 (destruct k as [|k]; [step_entries; reflexivity|]);
          exfalso; lia|]).
  exfalso; lia.
Qed.

(** The columns of [F] for the velocity: [dt] times the identity in the
    position rows, the identity in the velocity rows, zero elsewhere. *)
Lemma build_F_velocity_columns d q q' Rw Ra0 Ra1 i b :
  (i < 15)%nat -> (b < 3)%nat ->
  mget (build_F d q q' Rw Ra0 Ra1) i (6 + b)
  = if (i <? 3)%nat then kron i b * d else kron i (6 + b).
Proof.
  intros Hi Hb.
  do 15 (destruct i as [|i];
         [do 3 (destruct b as [|b]; [step_entries; reflexivity|]);
          exfalso; lia|]).
  exfalso; lia.
Qed.

(** The rotation rows of [F] are zero in the position, velocity and
    accelerometer-bias columns. *)
Lemma build_F_rotation_rows d q q' Rw Ra0 Ra1 i k :
  (3 <= i < 6)%nat -> (k < 3 \/ 6 <= k < 12)%nat ->
  mget (build_F d q q' Rw Ra0 Ra1) i k = 0.
Proof.
  intros Hi Hk.
  do 3 (destruct i as [|i]; [exfalso; lia|]).
  do 3 (destruct i as [|i];
        [do 12 (destruct k as [|k];
                [first [exfalso; lia | step_entries; reflexivity]|]);
         exfalso; lia|]).
  exfalso; lia.
Qed.

End StepMatrices.

Section ExactJacobian.
Variable S : Scalar.
Variable le : S -> S -> Prop.
Hypothesis EA : ExactArith S le.
Implicit Types (st : IntegrationBase S) (ss : list (Sample S)).

Add Ring scalar_ring_j : (ea_ring EA).

Lemma kron_same i : kron (S := S) i i = 1.
Proof. unfold kron. now rewrite Nat.eqb_refl. Qed.

Lemma kron_other i j : i <> j -> kron (S := S) i j = 0.
Proof. intros H. unfold kron. apply Nat.eqb_neq in H. now rewrite H. Qed.

Lemma sum_kron_l n i (g : nat -> S) :
  (i < n)%nat -> sum n (fun k => kron i k * g k) = g i.
Proof.
  induction n as [|n IH]; intros Hi; [lia|]. cbn [sum].
  destruct (Nat.eq_dec i n) as [->|Hne].
  - rewrite kron_same.
    rewrite (@sum_ext S n _ (fun _ => 0))
      by (intros k Hk; rewrite kron_other by lia; ring).
    rewrite (sum_zero EA). ring.
  - rewrite IH by lia. rewrite kron_other by assumption. ring.
Qed.

Lemma sum_kron_r n j (f : nat -> S) :
  (j < n)%nat -> sum n (fun k => f k * kron k j) = f j.
Proof.
  intros Hj. rewrite <- (sum_kron_l f Hj).
  apply sum_ext; intros k _. unfold kron. rewrite (Nat.eqb_sym k j). ring.
Qed.

Lemma new_jacobian_ok (un : Uninit S) a0 g0 ba bg :
  jacobian_ok (IntegrationBase_new un a0 g0 ba bg).
Proof.
  unfold jacobian_ok.
  change (jacobian (IntegrationBase_new un a0 g0 ba bg)) with (m_identity (S := S) 15).
  change (sum_dt (IntegrationBase_new un a0 g0 ba bg)) with (0 : S).
  split; [|split]; intros i j Hi Hj.
  - apply mget_m_identity; lia.
  - apply mget_m_identity; lia.
  - rewrite mget_m_identity by lia.
    destruct (i <? 3)%nat eqn:E; [|reflexivity].
    apply Nat.ltb_lt in E. rewrite (@kron_other i (6 + j)) by lia. ring.
Qed.

Lemma propagate_jacobian_ok st d a g :
  jacobian_ok st -> jacobian_ok (exec (propagate d a g) st).
Proof.
  intros (HR & HP & HV). unfold jacobian_ok.
  rewrite propagate_jacobian, propagate_sum_dt. unfold F_of_step.
  set (F := build_F _ _ _ _ _ _).
  assert (FR : forall i k, (9 <= i < 15)%nat -> (k < 15)%nat -> mget F i k = kron i k)
    by (intros; apply build_F_bias_rows; assumption).
  assert (FP : forall i k, (i < 15)%nat -> (k < 3)%nat -> mget F i k = kron i k)
    by (intros; apply build_F_position_columns; assumption).
  assert (FV : forall i b, (i < 15)%nat -> (b < 3)%nat ->
             mget F i (6 + b) = if (i <? 3)%nat then kron i b * d else kron i (6 + b))
    by (intros; apply build_F_velocity_columns; assumption).
  clearbody F.
  split; [|split]; intros i j Hi Hj; rewrite mget_mmul by lia.
  - rewrite (@sum_ext S 15 _ (fun k => kron i k * mget (jacobian st) k j))
      by (intros k Hk; now rewrite FR by lia).
    rewrite sum_kron_l by lia. apply HR; lia.
  - rewrite (@sum_ext S 15 _ (fun k => mget F i k * kron k j))
      by (intros k Hk; now rewrite HP by lia).
    rewrite sum_kron_r by lia. apply FP; lia.
  - rewrite (@sum_ext S 15 _
               (fun k => mget F i k * kron k j * sum_dt st + mget F i k * kron k (6 + j))).
    2:{ intros k Hk. rewrite HV by lia.
        destruct (k <? 3)%nat eqn:E.
        - apply Nat.ltb_lt in E. rewrite (@kron_other k (6 + j)) by lia. ring.
        - apply Nat.ltb_ge in E. rewrite (@kron_other k j) by lia. ring. }
    rewrite (sum_add EA), (sum_scal_r EA), !sum_kron_r by lia.
    rewrite FP, FV by lia.
    destruct (i <? 3)%nat eqn:E; [ring|].
    apply Nat.ltb_ge in E. rewrite (@kron_other i j) by lia. ring.
Qed.

Lemma propagate_all_jacobian_ok ss st :
  jacobian_ok st -> jacobian_ok (propagate_all ss st).
Proof.
  revert st; induction ss as [|[[d a] g] ss IH]; intros st H; [exact H|].
  rewrite propagate_all_cons. apply IH.
  unfold propagate_sample; cbn [fst snd]. now apply propagate_jacobian_ok.
Qed.

Lemma members_with_buffers ss st :
  jacobian (with_buffers ss st) = jacobian st /\
  sum_dt (with_buffers ss st) = sum_dt st /\
  noise (with_buffers ss st) = noise st.
Proof. destruct st. run_methods. auto. Qed.

(** X12. In exact arithmetic, after construction and any pushes, the
    jacobian has identity rows for the two biases and identity columns for
    the position, and its velocity columns hold [sum_dt] times the identity
    in the position rows, the identity in the velocity rows and zero
    elsewhere. *)
Theorem jacobian_structure (un : Uninit S) a0 g0 ba bg ss :
  let st := push_all ss (IntegrationBase_new un a0 g0 ba bg) in
  (forall i j, (9 <= i < 15)%nat -> (j < 15)%nat ->
     mget (jacobian st) i j = kron i j) /\
  (forall i j, (i < 15)%nat -> (j < 3)%nat ->
     mget (jacobian st) i j = kron i j) /\
  (forall i b, (i < 15)%nat -> (b < 3)%nat ->
     mget (jacobian st) i (6 + b)
     = if (i <? 3)%nat then kron i b * sum_dt st else kron i (6 + b)).
Proof.
  cbv zeta. rewrite push_all_propagate_all.
  destruct (members_with_buffers ss
              (propagate_all ss (IntegrationBase_new un a0 g0 ba bg)))
    as (-> & -> & _).
  apply propagate_all_jacobian_ok, new_jacobian_ok.
Qed.

(** *** The rotation rows of the jacobian *)

Lemma propagate_rotation_rows st d a g :
  jacobian_ok st ->
  (forall i b, (3 <= i < 6)%nat -> (b < 3)%nat ->
     mget (jacobian st) i (9 + b) = 0) ->
  forall i b, (3 <= i < 6)%nat -> (b < 3)%nat ->
    mget (jacobian (exec (propagate d a g) st)) i (9 + b) = 0.
Proof.
  intros (HR & _ & _) H0 i b Hi Hb.
  rewrite propagate_jacobian. unfold F_of_step.
  set (F := build_F _ _ _ _ _ _).
  assert (F0 : forall k, (k < 3 \/ 6 <= k < 12)%nat -> mget F i k = 0)
    by (intros; apply build_F_rotation_rows; assumption).
  clearbody F. rewrite mget_mmul by lia.
  rewrite (@sum_ext S 15 _ (fun _ => 0)); [apply (sum_zero EA)|].
  intros k Hk.
  destruct (Nat.lt_ge_cases k 3) as [K|K]; [rewrite F0 by lia; ring|].
  destruct (Nat.lt_ge_cases k 6) as [K'|K']; [rewrite H0 by lia; ring|].
  destruct (Nat.lt_ge_cases k 12) as [K''|K'']; [rewrite F0 by lia; ring|].
  rewrite HR, kron_other by lia. ring.
Qed.

Lemma propagate_all_rotation_rows ss st :
  jacobian_ok st ->
  (forall i b, (3 <= i < 6)%nat -> (b < 3)%nat ->
     mget (jacobian st) i (9 + b) = 0) ->
  forall i b, (3 <= i < 6)%nat -> (b < 3)%nat ->
    mget (jacobian (propagate_all ss st)) i (9 + b) = 0.
Proof.
  revert st; induction ss as [|[[d a] g] ss IH]; intros st Hj H0; [exact H0|].
  rewrite propagate_all_cons. unfold propagate_sample; cbn [fst snd]. apply IH.
  - now apply propagate_jacobian_ok.
  - now apply propagate_rotation_rows.
Qed.

(** X15. In exact arithmetic, after construction and any pushes, the
    rotation rows of the jacobian are zero in the accelerometer-bias columns:
    the orientation error is insensitive to the accelerometer bias. *)
Theorem jacobian_rotation_ignores_accelerometer_bias
  (un : Uninit S) a0 g0 ba bg ss :
  let st := push_all ss (IntegrationBase_new un a0 g0 ba bg) in
  forall i b, (3 <= i < 6)%nat -> (b < 3)%nat ->
    mget (jacobian st) i (9 + b) = 0.
Proof.
  cbv zeta. rewrite push_all_propagate_all.
  destruct (members_with_buffers ss
              (propagate_all ss (IntegrationBase_new un a0 g0 ba bg)))
    as (-> & _).
  apply propagate_all_rotation_rows; [apply new_jacobian_ok|].
  intros i b Hi Hb.
  change (jacobian (IntegrationBase_new un a0 g0 ba bg)) with (m_identity (S := S) 15).
  rewrite mget_m_identity by lia. apply kron_other; lia.
Qed.

(** *** The bias block of the covariance *)

(** The rows of [V] for the two biases: [dt] at the random-walk noise of
    the same axis, zero elsewhere. *)
Lemma build_V_bias_rows d (q q' : Quaterniond S) Ra1 i m :
  (9 <= i < 15)%nat -> (m < 18)%nat ->
  mget (build_V d q q' Ra1) i m = kron (i + 3) m * d.
Proof.
  intros Hi Hm.
  do 9 (destruct i as [|i]; [exfalso; lia|]).
  do 6 (destruct i as [|i];
        [do 18 (destruct m as [|m]; [step_entries; ring|]);
         exfalso; lia|]).
  exfalso; lia.
Qed.

Lemma sum_kron_flip n j (f : nat -> S) :
  (j < n)%nat -> sum n (fun k => f k * kron j k) = f j.
Proof.
  intros Hj. rewrite <- (sum_kron_l f Hj).
  apply sum_ext; intros k _. ring.
Qed.

Lemma new_covariance_bias_ok (un : Uninit S) a0 g0 ba bg :
  covariance_bias_ok 0 (IntegrationBase_new un a0 g0 ba bg).
Proof.
  split.
  - intros i j Hi Hj.
    change (covariance (IntegrationBase_new un a0 g0 ba bg)) with (m_zero (S := S) 15 15).
    rewrite mget_m_zero by lia. ring.
  - intros i j Hi Hj. now apply (noise_diagonal EA).
Qed.

Lemma propagate_covariance_bias_ok st d a g c :
  covariance_bias_ok c st ->
  covariance_bias_ok (c + d * d) (exec (propagate d a g) st).
Proof.
  intros (HP & HQ). unfold covariance_bias_ok.
  destruct (propagate_frame st d a g) as (_ & _ & _ & _ & -> & _).
  split; [|exact HQ].
  rewrite propagate_covariance. unfold kalman_predict, F_of_step, V_of_step.
  set (F := build_F _ _ _ _ _ _). set (V := build_V _ _ _ _).
  assert (FR : forall i k, (9 <= i < 15)%nat -> (k < 15)%nat -> mget F i k = kron i k)
    by (intros; apply build_F_bias_rows; assumption).
  assert (VR : forall i m, (9 <= i < 15)%nat -> (m < 18)%nat ->
             mget V i m = kron (i + 3) m * d)
    by (intros; apply build_V_bias_rows; assumption).
  clearbody F V.
  intros i j Hi Hj.
  rewrite mget_madd, !mget_mmul by lia.
  assert (E1 : sum 15 (fun l => mget (mmul 15 15 15 F (covariance st)) i l
                                * mget (mtranspose 15 15 F) l j)
               = mget (covariance st) i j).
  { rewrite (@sum_ext S 15 _ (fun l => mget (covariance st) i l * kron j l)).
    - apply sum_kron_flip; lia.
    - intros l Hl. rewrite mget_mmul, mget_mtranspose, FR by lia.
      rewrite (@sum_ext S 15 _ (fun m => kron i m * mget (covariance st) m l))
        by (intros m Hm; now rewrite FR by lia).
      now rewrite sum_kron_l by lia. }
  assert (E2 : sum 18 (fun l => mget (mmul 15 18 18 V (noise st)) i l
                                * mget (mtranspose 15 18 V) l j)
               = d * mget (noise st) (i + 3) (j + 3) * d).
  { rewrite (@sum_ext S 18 _
               (fun l => d * mget (noise st) (i + 3) l * d * kron (j + 3) l)).
    - rewrite sum_kron_flip by lia. reflexivity.
    - intros l Hl. rewrite mget_mmul, mget_mtranspose, VR by lia.
      rewrite (@sum_ext S 18 _ (fun m => kron (i + 3) m * (d * mget (noise st) m l)))
        by (intros m Hm; rewrite VR by lia; ring).
      rewrite sum_kron_l by lia. ring. }
  rewrite E1, E2, HP, HQ by lia.
  destruct (Nat.eq_dec i j) as [->|Hne].
  - rewrite Nat.eqb_refl, kron_same. ring.
  - replace (Nat.eqb (i + 3) (j + 3)) with false
      by (symmetry; apply Nat.eqb_neq; lia).
    rewrite kron_other by assumption. ring.
Qed.

Lemma propagate_all_covariance_bias_ok ss st c :
  covariance_bias_ok c st ->
  covariance_bias_ok (add_sq_dts ss c) (propagate_all ss st).
Proof.
  revert st c; induction ss as [|[[d a] g] ss IH]; intros st c H; [exact H|].
  rewrite propagate_all_cons.
  change (add_sq_dts ((d, a, g) :: ss) c) with (add_sq_dts ss (c + d * d)).
  apply IH. unfold propagate_sample; cbn [fst snd].
  now apply propagate_covariance_bias_ok.
Qed.

(** X13. In exact arithmetic, after construction and any pushes, the
    bias block of the covariance (rows and columns 9 to 14) is diagonal:
    its entry for an axis is the squared random-walk density of that bias
    ([ACC_W] for rows 9-11, [GYR_W] for rows 12-14) times the sum of the
    squares of the pushed [dt]. *)
Theorem covariance_bias_block (un : Uninit S) a0 g0 ba bg ss :
  let st := push_all ss (IntegrationBase_new un a0 g0 ba bg) in
  forall i j, (9 <= i < 15)%nat -> (9 <= j < 15)%nat ->
    mget (covariance st) i j
    = kron i j * (density S (i + 3) * density S (i + 3)) * add_sq_dts ss 0.
Proof.
  cbv zeta. rewrite push_all_propagate_all, covariance_with_buffers.
  apply (propagate_all_covariance_bias_ok ss (new_covariance_bias_ok un a0 g0 ba bg)).
Qed.

End ExactJacobian.

Example turned_delta_q :
  delta_q turned = mkQuat (float_lit 0.8) (float_lit 0.6) (float_lit 0) (float_lit 0).
Proof. vm_compute. reflexivity. Qed.

(** C1, as stated, fails: the force at sample k+1 is not rotated by the
    orientation that the step stores.  A sensor turning about x at 1.5 rad/s
    under the force (0, 0, 9.81), one step of 1 s: the stored [delta_q] is
    (0.8, 0.6, 0, 0) and the stated formula gives [delta_v] = (0, -4.7088,
    6.2784), while [propagate] stores a [delta_v] whose y component is below
    -7; the vector it averages has squared length above 200, that of the
    force being below 97. *)
Lemma C1_stored_orientation_is_not_used :
  let g := fvec 1.5 0 0 in
  let a := fvec 0 0 9.81 in
  let d := float_lit 1 in
  let st := IntegrationBase_new float_uninit a g (fvec 0 0 0) (fvec 0 0 0) in
  let st' := exec (propagate d a g) st in
  let f := a -^ linearized_ba st in
  let un_acc_0 := qrot (delta_q st) (acc_0 st -^ linearized_ba st) in
  let stated := 0.5 *^ (un_acc_0 +^ qrot (delta_q st') f) in
  let u := qrot (updated_q st d g) f in
  delta_q st' = mkQuat (float_lit 0.8) (float_lit 0.6) (float_lit 0) (float_lit 0) /\
  delta_v st +^ stated ^* d = fvec 0 (-4.7088) 6.2784 /\
  delta_v st' <> delta_v st +^ stated ^* d /\
  delta_p st' <> delta_p st +^ delta_v st ^* d +^ 0.5 *^ stated ^* d ^* d /\
  PrimFloat.ltb (vy (delta_v st')) (float_lit (-7)) = true /\
  PrimFloat.ltb (float_lit 200) (vx u * vx u + vy u * vy u + vz u * vz u) = true /\
  PrimFloat.ltb (vx f * vx f + vy f * vy f + vz f * vz f) (float_lit 97) = true.
Proof.
  cbv zeta.
  split; [vm_compute; reflexivity|]. split; [vm_compute; reflexivity|].
  split; [|split; [|split; [|split]]]; try (vm_compute; reflexivity).
  - intros H.
    assert (E : PrimFloat.eqb
                  (vy (delta_v (exec (propagate (float_lit 1) (fvec 0 0 9.81)
                                        (fvec 1.5 0 0))
                                  (IntegrationBase_new float_uninit (fvec 0 0 9.81)
                                     (fvec 1.5 0 0) (fvec 0 0 0) (fvec 0 0 0)))))
                  (float_lit (-4.7088)) = true)
      by (rewrite H; vm_compute; reflexivity).
    vm_compute in E. discriminate E.
  - intros H.
    assert (E : PrimFloat.eqb
                  (vy (delta_p (exec (propagate (float_lit 1) (fvec 0 0 9.81)
                                        (fvec 1.5 0 0))
                                  (IntegrationBase_new float_uninit (fvec 0 0 9.81)
                                     (fvec 1.5 0 0) (fvec 0 0 0) (fvec 0 0 0)))))
                  (float_lit (-2.3544)) = true)
      by (rewrite H; vm_compute; reflexivity).
    vm_compute in E. discriminate E.
Qed.

(** C2, as stated, fails: with the increment as the left factor the
    orientation differs from what [propagate] stores.  After a turn about x,
    a step about x and y gives a z component of opposite sign. *)
Lemma C2_left_multiplication_differs :
  let g2 := fvec 0 1.5 0 in
  let st' := exec (propagate (float_lit 1) (fvec 0 0 9.81) g2) turned in
  let dq := small_angle (mean_rate turned g2) (float_lit 1) in
  delta_q st' = q_normalize (qmul (delta_q turned) dq) /\
  delta_q st' <> q_normalize (qmul dq (delta_q turned)) /\
  PrimFloat.ltb 0 (qz (delta_q st')) = true /\
  PrimFloat.ltb (qz (q_normalize (qmul dq (delta_q turned)))) 0 = true.
Proof.
  cbv zeta. split; [vm_compute; reflexivity|]. split; [|split; vm_compute; reflexivity].
  intros H.
  assert (E : PrimFloat.ltb 0
                (qz (delta_q (exec (propagate (float_lit 1) (fvec 0 0 9.81)
                                      (fvec 0 1.5 0)) turned)))
              = PrimFloat.ltb 0
                  (qz (q_normalize
                         (qmul (small_angle (mean_rate turned (fvec 0 1.5 0))
                                  (float_lit 1)) (delta_q turned)))))
    by (rewrite H; reflexivity).
  vm_compute in E. discriminate E.
Qed.

(** C8, as stated, fails: a stationary sensor that measures gravity and no
    rotation accumulates velocity and position, since the propagator does not
    subtract gravity. *)
Lemma C8_gravity_is_integrated :
  let st := push_all [(float_lit 1, G FloatScalar, fvec 0 0 0)] stationary in
  delta_v st = fvec 0 0 9.81 /\
  delta_v st <> v3_zero /\ delta_p st <> v3_zero /\
  delta_q st = q_identity.
Proof.
  cbv zeta. split; [vm_compute; reflexivity|]. split; [|split].
  - intros H.
    assert (E : PrimFloat.eqb
                  (vz (delta_v (push_all [(float_lit 1, G FloatScalar, fvec 0 0 0)]
                                  stationary))) (vz (v3_zero (S := FloatScalar)))
                = true) by (rewrite H; vm_compute; reflexivity).
    vm_compute in E. discriminate E.
  - intros H.
    assert (E : PrimFloat.eqb
                  (vz (delta_p (push_all [(float_lit 1, G FloatScalar, fvec 0 0 0)]
                                  stationary))) (vz (v3_zero (S := FloatScalar)))
                = true) by (rewrite H; vm_compute; reflexivity).
    vm_compute in E. discriminate E.
  - vm_compute. reflexivity.
Qed.

(** C9, as stated, fails: [push_back] with [dt = -1] is not rejected; the
    sample is buffered and integrated, and [sum_dt] goes negative. *)
Lemma C9_negative_dt_is_not_rejected :
  let call := push_back (float_lit (-1)) (G FloatScalar) (fvec 0 0 0) in
  ~ rejected call stationary /\
  ~ rejected (propagate (float_lit (-1)) (G FloatScalar) (fvec 0 0 0)) stationary /\
  dt_buf (exec call stationary) = [float_lit (-1)] /\
  sum_dt (exec call stationary) = float_lit (-1) /\
  delta_p (exec call stationary) = fvec 0 0 4.905.
Proof.
  cbv zeta. split; [|split; [|split; [|split]]]; try (vm_compute; reflexivity).
  - unfold rejected. intros H.
    assert (E : length (dt_buf (exec (push_back (float_lit (-1)) (G FloatScalar)
                                        (fvec 0 0 0)) stationary))
                = length (dt_buf stationary)) by (rewrite H; reflexivity).
    vm_compute in E. discriminate E.
  - unfold rejected. intros H.
    assert (E : PrimFloat.eqb
                  (sum_dt (exec (propagate (float_lit (-1)) (G FloatScalar)
                                   (fvec 0 0 0)) stationary))
                  (sum_dt stationary) = true)
      by (rewrite H; vm_compute; reflexivity).
    vm_compute in E. discriminate E.
Qed.

(** *** The hypotheses of the theorems above can be met *)

Lemma C7_empty_buffer_witness :
  dt_buf stationary = [] /\
  sum_dt (exec (repropagate (fvec 0 0 0) (fvec 0 0 0)) stationary) = float_lit 0.
Proof.
  split; [reflexivity|].
  apply (C7_repropagate_empty_buffer stationary (fvec 0 0 0) (fvec 0 0 0)).
  reflexivity.
Defined.

Lemma C4_real_witness :
  ExactArith RScalar Rle /\
  psd Rle 15
    (covariance
       (push_all [(Q2R 0.01, rvec 0.1 0.2 9.81, rvec 1.5 0 0)]
          (IntegrationBase_new real_uninit (rvec 0 0 9.81) (rvec 0 0 0)
             (rvec 0 0 0) (rvec 0 0 0)))).
Proof.
  split; [exact RScalar_exact|].
  apply (C4_covariance_symmetric_psd RScalar_exact real_uninit
           (rvec 0 0 9.81) (rvec 0 0 0) (rvec 0 0 0) (rvec 0 0 0)
           [(Q2R 0.01, rvec 0.1 0.2 9.81, rvec 1.5 0 0)]).
Defined.

Lemma C8_real_witness :
  ExactArith RScalar Rle /\
  Forall (steady (rvec 0.1 0 0) (rvec 0 0.02 0))
    [(Q2R 0.01, rvec 0.1 0 0, rvec 0 0.02 0)] /\
  delta_v
    (push_all [(Q2R 0.01, rvec 0.1 0 0, rvec 0 0.02 0)]
       (IntegrationBase_new real_uninit (rvec 0.1 0 0) (rvec 0 0.02 0)
          (rvec 0.1 0 0) (rvec 0 0.02 0))) = v3_zero.
Proof.
  assert (H : Forall (steady (rvec 0.1 0 0) (rvec 0 0.02 0))
                [(Q2R 0.01, rvec 0.1 0 0, rvec 0 0.02 0)])
    by (repeat constructor).
  split; [exact RScalar_exact|]. split; [exact H|].
  apply (C8_zero_motion RScalar_exact real_uninit H).
Defined.

Lemma C2_real_witness :
  ExactArith RScalar Rle /\
  unit_quaternion (q_identity (S := RScalar)) /\
  unit_quaternion
    (delta_q
       (exec (propagate (Q2R 0.01) (rvec 0 0 9.81) (rvec 1.5 0 0))
          (IntegrationBase_new real_uninit (rvec 0 0 9.81) (rvec 0 0 0)
             (rvec 0 0 0) (rvec 0 0 0)))).
Proof.
  assert (H : unit_quaternion (q_identity (S := RScalar))).
  { unfold unit_quaternion, q_squaredNorm, q_identity;
      cbn [qw qx qy qz T lit sadd smul RScalar].
    rewrite Q2R_zero, Q2R_one. ring. }
  split; [exact RScalar_exact|]. split; [exact H|].
  apply (proj2 (C2_orientation_update
                  (IntegrationBase_new real_uninit (rvec 0 0 9.81) (rvec 0 0 0)
                     (rvec 0 0 0) (rvec 0 0 0))
                  (Q2R 0.01) (rvec 0 0 9.81) (rvec 1.5 0 0)) Rle RScalar_exact).
  exact H.
Defined.

Lemma orientation_unit_norm_witness :
  ExactArith RScalar Rle /\
  unit_quaternion
    (delta_q
       (push_all [(Q2R 0.01, rvec 0.1 0.2 9.81, rvec 1.5 0 0)]
          (IntegrationBase_new real_uninit (rvec 0 0 9.81) (rvec 0 0 0)
             (rvec 0 0 0) (rvec 0 0 0)))).
Proof.
  split; [exact RScalar_exact|].
  apply (orientation_unit_norm RScalar_exact real_uninit
           (rvec 0 0 9.81) (rvec 0 0 0) (rvec 0 0 0) (rvec 0 0 0)
           [(Q2R 0.01, rvec 0.1 0.2 9.81, rvec 1.5 0 0)]).
Defined.

Lemma noise_constant_diagonal_witness :
  ExactArith RScalar Rle /\ (0 < 18)%nat /\
  mget (noise
          (push_all [(Q2R 0.01, rvec 0.1 0.2 9.81, rvec 1.5 0 0)]
             (IntegrationBase_new real_uninit (rvec 0 0 9.81) (rvec 0 0 0)
                (rvec 0 0 0) (rvec 0 0 0)))) 0 0
  = (Q2R 0.08 * Q2R 0.08)%R.
Proof.
  assert (H : (0 < 18)%nat) by lia.
  split; [exact RScalar_exact|]. split; [exact H|].
  apply (noise_constant_diagonal RScalar_exact real_uninit
           (rvec 0 0 9.81) (rvec 0 0 0) (rvec 0 0 0) (rvec 0 0 0)
           [(Q2R 0.01, rvec 0.1 0.2 9.81, rvec 1.5 0 0)] H H).
Defined.

(** *** The hypotheses of the composition and structure theorems can be met *)

Lemma replayed_reachable :
  reachable (deltaQ_small (S := FloatScalar)) float_uninit
    (fvec 0 0 9.81) (fvec 1.5 0 0) replayed.
Proof.
  unfold replayed. apply reach_repropagate.
  unfold turned, push_all; cbn [fold_left]. unfold push_sample; cbn [fst snd].
  apply reach_push_back, reach_new.
Qed.

Lemma reachable_instances_witness :
  reachable (deltaQ_small (S := FloatScalar)) float_uninit
    (fvec 0 0 9.81) (fvec 1.5 0 0) replayed /\
  length (acc_buf replayed) = length (dt_buf replayed).
Proof.
  split; [exact replayed_reachable|].
  apply (reachable_instances replayed_reachable).
Defined.

Lemma repropagate_composition_witness :
  reachable (deltaQ_small (S := FloatScalar)) float_uninit
    (fvec 0 0 9.81) (fvec 1.5 0 0) replayed /\
  exec (repropagate (fvec 0 0 0) (fvec 0 0 0))
    (exec (repropagate (fvec 1 1 1) (fvec 2 2 2)) replayed)
  = exec (repropagate (fvec 0 0 0) (fvec 0 0 0)) replayed.
Proof.
  split; [exact replayed_reachable|].
  exact (proj1 (repropagate_composition (fvec 1 1 1) (fvec 2 2 2) (fvec 0 0 0)
                  (fvec 0 0 0) (float_lit 1) (fvec 0 0 0) (fvec 0 0 0)
                  replayed_reachable)).
Defined.

Lemma orientation_ignores_accelerometer_witness :
  map (fun s => fst (fst s)) [(float_lit 1, fvec 0 0 9.81, fvec 1.5 0 0)]
  = map (fun s => fst (fst s)) [(float_lit 1, fvec 1 2 3, fvec 1.5 0 0)] /\
  delta_q turned
  = delta_q
      (push_all [(float_lit 1, fvec 1 2 3, fvec 1.5 0 0)]
         (IntegrationBase_new float_uninit (fvec 4 5 6) (fvec 1.5 0 0)
            (fvec 7 8 9) (fvec 0 0 0))).
Proof.
  split; [reflexivity|].
  apply (orientation_ignores_accelerometer float_uninit float_uninit
           (fvec 0 0 9.81) (fvec 4 5 6) (fvec 1.5 0 0) (fvec 0 0 0) (fvec 7 8 9)
           (fvec 0 0 0)
           [(float_lit 1, fvec 0 0 9.81, fvec 1.5 0 0)]
           [(float_lit 1, fvec 1 2 3, fvec 1.5 0 0)]); reflexivity.
Defined.

Lemma evaluate_translation_invariant_witness :
  ExactArith RScalar Rle /\
  eval (evaluate deltaQ_small (rvec 1 0 0 +^ rvec 5 5 5) q_identity (rvec 0 0 0)
          (rvec 0 0 0) (rvec 0 0 0) (rvec 2 0 0 +^ rvec 5 5 5) q_identity
          (rvec 0 0 0) (rvec 0 0 0) (rvec 0 0 0)) real_fed
  = eval (evaluate deltaQ_small (rvec 1 0 0) q_identity (rvec 0 0 0)
            (rvec 0 0 0) (rvec 0 0 0) (rvec 2 0 0) q_identity
            (rvec 0 0 0) (rvec 0 0 0) (rvec 0 0 0)) real_fed.
Proof.
  split; [exact RScalar_exact|].
  apply (evaluate_translation_invariant (deltaQ_small (S := RScalar)) RScalar_exact).
Defined.

Lemma evaluate_zero_residual_witness :
  unit_quaternion (q_identity (S := RScalar)) /\
  unit_quaternion (delta_q real_fed) /\
  deltaQ_small (v3_zero (S := RScalar)) = q_identity /\
  eval (evaluate deltaQ_small (rvec 1 2 3) q_identity (rvec 0.5 0 0)
          (linearized_ba real_fed) (linearized_bg real_fed)
          (rvec 1 2 3 +^ rvec 0.5 0 0 ^* sum_dt real_fed
           -^ 0.5 *^ G RScalar ^* sum_dt real_fed ^* sum_dt real_fed
           +^ qrot q_identity (delta_p real_fed))
          (qmul q_identity (delta_q real_fed))
          (rvec 0.5 0 0 -^ G RScalar ^* sum_dt real_fed
           +^ qrot q_identity (delta_v real_fed))
          (linearized_ba real_fed) (linearized_bg real_fed)) real_fed
  = repeat (Q2R 0) 15.
Proof.
  pose proof (unit_identity RScalar_exact) as H1.
  pose proof (orientation_unit_norm RScalar_exact real_uninit
                (rvec 0 0 9.81) (rvec 0 0 0) (rvec 0 0 0) (rvec 0 0 0)
                [(Q2R 0.01, rvec 0.1 0.2 9.81, rvec 1.5 0 0)]) as H2.
  pose proof (deltaQ_small_zero RScalar_exact) as H3.
  split; [exact H1|]. split; [exact H2|]. split; [exact H3|].
  apply (evaluate_zero_residual (deltaQ_small (S := RScalar)) RScalar_exact
           real_fed (rvec 1 2 3) (rvec 0.5 0 0) H1 H2 H3).
Defined.

Lemma zero_dt_step_witness :
  unit_quaternion (delta_q real_fed) /\
  delta_p (exec (propagate (Q2R 0) (rvec 1 2 3) (rvec 4 5 6)) real_fed)
  = delta_p real_fed.
Proof.
  pose proof (orientation_unit_norm RScalar_exact real_uninit
                (rvec 0 0 9.81) (rvec 0 0 0) (rvec 0 0 0) (rvec 0 0 0)
                [(Q2R 0.01, rvec 0.1 0.2 9.81, rvec 1.5 0 0)]) as H.
  split; [exact H|].
  apply (zero_dt_step RScalar_exact real_fed (rvec 1 2 3) (rvec 4 5 6) H).
Defined.

Lemma jacobian_structure_witness :
  ExactArith RScalar Rle /\ (0 < 15)%nat /\ (0 < 3)%nat /\
  mget (jacobian real_fed) 0 (6 + 0) = (kron 0 0 * sum_dt real_fed)%S.
Proof.
  assert (H15 : (0 < 15)%nat) by lia. assert (H3 : (0 < 3)%nat) by lia.
  split; [exact RScalar_exact|]. split; [exact H15|]. split; [exact H3|].
  apply (proj2 (proj2 (jacobian_structure RScalar_exact real_uninit
                         (rvec 0 0 9.81) (rvec 0 0 0) (rvec 0 0 0) (rvec 0 0 0)
                         [(Q2R 0.01, rvec 0.1 0.2 9.81, rvec 1.5 0 0)]))
           0%nat 0%nat H15 H3).
Defined.

Lemma covariance_bias_block_witness :
  ExactArith RScalar Rle /\ (9 <= 9 < 15)%nat /\
  mget (covariance real_fed) 9 9
  = (kron 9 9 * (density RScalar (9 + 3) * density RScalar (9 + 3))
     * add_sq_dts [(Q2R 0.01, rvec 0.1 0.2 9.81, rvec 1.5 0 0)] 0)%S.
Proof.
  assert (H : (9 <= 9 < 15)%nat) by lia.
  split; [exact RScalar_exact|]. split; [exact H|].
  apply (covariance_bias_block RScalar_exact real_uninit
           (rvec 0 0 9.81) (rvec 0 0 0) (rvec 0 0 0) (rvec 0 0 0)
           [(Q2R 0.01, rvec 0.1 0.2 9.81, rvec 1.5 0 0)] H H).
Defined.

Lemma constant_force_motion_witness :
  ExactArith RScalar Rle /\
  Forall (steady (G RScalar) (rvec 0 0 0))
    [(Q2R 0.01, G RScalar, rvec 0 0 0); (Q2R 0.02, G RScalar, rvec 0 0 0)] /\
  delta_v
    (push_all [(Q2R 0.01, G RScalar, rvec 0 0 0); (Q2R 0.02, G RScalar, rvec 0 0 0)]
       (IntegrationBase_new real_uninit (G RScalar) (rvec 0 0 0)
          (rvec 0 0 0) (rvec 0 0 0)))
  = (G RScalar -^ rvec 0 0 0)
    ^* sum_dt
         (push_all [(Q2R 0.01, G RScalar, rvec 0 0 0);
                    (Q2R 0.02, G RScalar, rvec 0 0 0)]
            (IntegrationBase_new real_uninit (G RScalar) (rvec 0 0 0)
               (rvec 0 0 0) (rvec 0 0 0))).
Proof.
  assert (H : Forall (steady (G RScalar) (rvec 0 0 0))
                [(Q2R 0.01, G RScalar, rvec 0 0 0);
                 (Q2R 0.02, G RScalar, rvec 0 0 0)])
    by (repeat constructor).
  split; [exact RScalar_exact|]. split; [exact H|].
  exact (proj1 (constant_force_motion RScalar_exact real_uninit (rvec 0 0 0) H)).
Defined.

Lemma jacobian_rotation_witness :
  ExactArith RScalar Rle /\ (3 <= 3 < 6)%nat /\ (0 < 3)%nat /\
  mget (jacobian real_fed) 3 (9 + 0) = Q2R 0.
Proof.
  assert (H1 : (3 <= 3 < 6)%nat) by lia. assert (H2 : (0 < 3)%nat) by lia.
  split; [exact RScalar_exact|]. split; [exact H1|]. split; [exact H2|].
  apply (jacobian_rotation_ignores_accelerometer_bias RScalar_exact real_uninit
           (rvec 0 0 9.81) (rvec 0 0 0) (rvec 0 0 0) (rvec 0 0 0)
           [(Q2R 0.01, rvec 0.1 0.2 9.81, rvec 1.5 0 0)] H1 H2).
Defined.

Lemma midpoint_force_scaling_witness :
  let st := IntegrationBase_new real_uninit (rvec 0 0 9.81) (rvec 1.5 0 0)
              (rvec 0.1 0 0) (rvec 0 0 0.01) in
  ExactArith RScalar Rle /\
  unit_quaternion (delta_q st) /\
  q_squaredNorm (updated_q st (Q2R 0.01) (rvec 1.5 0 0))
  = (let w := mean_rate st (rvec 1.5 0 0) in
     1 + (vx w * Q2R 0.01 / 2 * (vx w * Q2R 0.01 / 2)
          + vy w * Q2R 0.01 / 2 * (vy w * Q2R 0.01 / 2)
          + vz w * Q2R 0.01 / 2 * (vz w * Q2R 0.01 / 2))).
Proof.
  intros st.
  assert (H : unit_quaternion (delta_q st)) by exact (unit_identity RScalar_exact).
  split; [exact RScalar_exact|]. split; [exact H|].
  exact (proj1 (midpoint_force_scaling RScalar_exact st (Q2R 0.01)
                  (rvec 0.2 0.1 9.81) (rvec 1.5 0 0) H)).
Defined.
